(** * go-craq: the replica node (node/node.go)

    A shallow embedding of the CRAQ replica node: its data model, the
    neighbor registry, the coordinator connection and the catch-up
    protocol, together with the properties of these that the design
    document states.

    The node talks to two collaborators through Go interfaces, the store
    ([storer]) and the transport ([transport.Transporter] and
    [transport.Client]).  Both are type classes here; the node's methods
    are written in a small monad that threads the [Node] struct, returns
    Go's [error] (or a panic) and records every call made on a
    collaborator, in program order. *)

From Stdlib Require Import NArith.
From Stdlib.Strings Require Import Byte.
From stdpp Require Import gmap strings list fin_maps.

Set Default Proof Using "Type*".

(** ** Errors *)

(** Go's [error] values; [nil] is [None] of [option error]. *)
Definition error : Type := string.

Definition ErrNotFound : error := "that key does not exist".
Definition ErrDirtyItem : error := "key has an uncommitted version".

(** A Go result pair [(T, error)]. *)
Inductive result (A : Type) : Type :=
| Ok (a : A)
| Err (e : error).
Arguments Ok {A} a.
Arguments Err {A} e.

(** ** Data model *)

(** [Item]: one stored version of a key.  [Version] is a [uint64]; the node
    never computes with versions in this file, so no wrap-around arises and
    they are kept as [N].  The store hands items out as [[]*Item]; the
    pointers are taken to be non-nil, as every store returns them. *)
Record Item : Type := mkItem {
  Version : N;
  Committed : bool;
  Value : list byte;
  Key : string
}.

(** [craqrpc.NeighborPos]: the positions of the neighbor registry. *)
Inductive NeighborPos : Type :=
| NeighborPosPrev
| NeighborPosNext
| NeighborPosTail.

#[global] Instance NeighborPos_eq_dec : EqDecision NeighborPos.
Proof. solve_decision. Defined.

Definition NeighborPos_to_nat (p : NeighborPos) : nat :=
  match p with
  | NeighborPosPrev => 0
  | NeighborPosNext => 1
  | NeighborPosTail => 2
  end.

Definition NeighborPos_of_nat (i : nat) : option NeighborPos :=
  match i with
  | 0 => Some NeighborPosPrev
  | 1 => Some NeighborPosNext
  | 2 => Some NeighborPosTail
  | _ => None
  end.

#[global] Program Instance NeighborPos_countable : Countable NeighborPos :=
  inj_countable NeighborPos_to_nat NeighborPos_of_nat _.
Next Obligation. by intros []. Qed.

(** Modelled from the spec: [craqrpc.NodeMeta] is declared outside node.go.
    Section 6 gives the reply of [AddNode] as
    [{is_head, is_tail, tail_path, prev_path}]; the fields carry the names
    node.go reads them by. *)
Record NodeMeta : Type := mkNodeMeta {
  IsHead : bool;
  IsTail : bool;
  Tail : string;
  Prev : string
}.

(** Modelled from the spec: the element type of [craqrpc.PropagateResponse]
    is declared outside node.go.  Section 6 describes a response as a
    mapping from key to the list of full items "(version, committed flag,
    value)"; node.go reads [item.Value] and [item.Version] and takes the key
    from the map. *)
Record PropagatedItem : Type := mkPropagatedItem {
  pi_Version : N;
  pi_Committed : bool;
  pi_Value : list byte
}.

(** [craqrpc.PropagateRequest] is [map[string][]uint64] and
    [craqrpc.PropagateResponse] maps a key to the items sent back. *)
Abbreviation PropagateRequest := (gmap string (list N)).
Abbreviation PropagateResponse := (gmap string (list PropagatedItem)).

(** ** The collaborators *)

(** The [storer] interface over a store state [St].  Every method may
    change the store, so each returns the state it leaves behind. *)
Class storer (St : Type) : Type := {
  store_Read : string → St → St * result Item;
  store_Write : string → list byte → N → St → St * option error;
  store_Commit : string → N → St → St * option error;
  store_ReadVersion : string → N → St → St * result Item;
  store_AllNewerCommitted : PropagateRequest → St → St * result (list Item);
  store_AllNewerDirty : PropagateRequest → St → St * result (list Item);
  store_AllDirty : St → St * result (list Item);
  store_AllCommitted : St → St * result (list Item)
}.

(** [transport.Transporter] and [transport.Client] over a network state
    [Net]; a [Client] is a handle on a connection.  [Client.Call] is given
    once per method name node.go calls it with. *)
Class Transporter (Net Client : Type) : Type := {
  tr_Connect : string → Net → Net * result Client;
  cl_AddNode : Client → string → Net → Net * result NodeMeta;
  cl_FwdPropagate : Client → PropagateRequest → Net → Net * result PropagateResponse;
  cl_BackPropagate : Client → PropagateRequest → Net → Net * result PropagateResponse;
  cl_Close : Client → Net → Net * option error
}.

(** Go leaves the order in which [range] visits a map unspecified.  The
    order is a parameter: any enumeration of the map's entries. *)
Class RangeOrder : Type := {
  range : PropagateResponse → list (string * list PropagatedItem);
  range_perm : ∀ m, range m ≡ₚ map_to_list m
}.

(** The remote procedure calls node.go issues, with their arguments. *)
Inductive Rpc : Type :=
| RPC_AddNode (path : string)
| RPC_FwdPropagate (args : PropagateRequest)
| RPC_BackPropagate (args : PropagateRequest).

Definition rpc_method (r : Rpc) : string :=
  match r with
  | RPC_AddNode _ => "RPC.AddNode"
  | RPC_FwdPropagate _ => "RPC.FwdPropagate"
  | RPC_BackPropagate _ => "RPC.BackPropagate"
  end.

Section Node.

Context {St Net Client : Type}.
Context {store_impl : storer St} {transport_impl : Transporter Net Client}.
Context {range_impl : RangeOrder}.

(** [neighbor]: a connection handle, possibly nil, and the path. *)
Record neighbor : Type := mkNeighbor {
  client : option Client;
  path : string
}.

(** The zero value of [neighbor], which Go returns for an absent key. *)
Definition neighbor_zero : neighbor := {| client := None; path := "" |}.

(** [Node].  The mutex [mu] is left out: no method of this file takes it. *)
Record Node : Type := mkNode {
  neighbors : gmap NeighborPos neighbor;
  store : St;
  latest : gmap string N;
  CdrPath : string;
  cdr : option Client;
  Path : string;
  isHead : bool;
  isTail : bool;
  transport : Net
}.

Record Opts : Type := mkOpts {
  opt_Store : St;
  opt_Path : string;
  opt_CdrPath : string;
  opt_Transport : Net
}.

(** [n.neighbors[pos]] as an expression: the zero value when absent. *)
Definition neighbor_at (n : Node) (pos : NeighborPos) : neighbor :=
  default neighbor_zero (neighbors n !! pos).

Definition set_neighbors (f : gmap NeighborPos neighbor → gmap NeighborPos neighbor)
    (n : Node) : Node :=
  mkNode (f (neighbors n)) (store n) (latest n) (CdrPath n) (cdr n) (Path n)
         (isHead n) (isTail n) (transport n).

Definition set_store (s : St) (n : Node) : Node :=
  mkNode (neighbors n) s (latest n) (CdrPath n) (cdr n) (Path n)
         (isHead n) (isTail n) (transport n).

Definition set_cdr (c : option Client) (n : Node) : Node :=
  mkNode (neighbors n) (store n) (latest n) (CdrPath n) c (Path n)
         (isHead n) (isTail n) (transport n).

Definition set_isHead (b : bool) (n : Node) : Node :=
  mkNode (neighbors n) (store n) (latest n) (CdrPath n) (cdr n) (Path n)
         b (isTail n) (transport n).

Definition set_isTail (b : bool) (n : Node) : Node :=
  mkNode (neighbors n) (store n) (latest n) (CdrPath n) (cdr n) (Path n)
         (isHead n) b (transport n).

Definition set_transport (t : Net) (n : Node) : Node :=
  mkNode (neighbors n) (store n) (latest n) (CdrPath n) (cdr n) (Path n)
         (isHead n) (isTail n) t.

(** ** Calls on the collaborators, as observed *)

Inductive Event : Type :=
| EvConnect (p : string)
| EvCall (c : Client) (r : Rpc)
| EvClose (c : Client)
| EvAllDirty
| EvAllCommitted
| EvWrite (key : string) (value : list byte) (version : N)
| EvCommit (key : string) (version : N)
| EvShutdown.

(** ** The monad of node methods *)

(** How a method ends: it returns (with a value, or with a non-nil
    [error]) or it panics, as Go does on a call through a nil interface. *)
Inductive outcome (A : Type) : Type :=
| Returns (a : A)
| Fails (e : error)
| Panics.
Arguments Returns {A} a.
Arguments Fails {A} e.
Arguments Panics {A}.

(** A run of a method: how it ended, the node it leaves (mutations made
    before an error stay) and the calls it made, oldest first. *)
Record Run (A : Type) : Type := mkRun {
  out : outcome A;
  post : Node;
  events : list Event
}.
Arguments mkRun {A} out post events.
Arguments out {A} r.
Arguments post {A} r.
Arguments events {A} r.

Definition M (A : Type) : Type := Node → Run A.

#[global] Instance M_ret : MRet M := λ A a n, mkRun (Returns a) n [].

#[global] Instance M_bind : MBind M := λ A B k m n,
  let r := m n in
  match out r with
  | Returns a =>
      let r' := k a (post r) in
      mkRun (out r') (post r') (events r ++ events r')
  | Fails e => mkRun (Fails e) (post r) (events r)
  | Panics => mkRun Panics (post r) (events r)
  end.

Definition get : M Node := λ n, mkRun (Returns n) n [].
Definition modify (f : Node → Node) : M unit := λ n, mkRun (Returns ()) (f n) [].
Definition panic {A} : M A := λ n, mkRun Panics n [].

(** A store method returning only [error]. *)
Definition store_do (ev : Event) (op : St → St * option error) : M unit := λ n,
  let '(s, r) := op (store n) in
  mkRun (match r with None => Returns () | Some e => Fails e end)
        (set_store s n) [ev].

(** A store method returning [(T, error)]. *)
Definition store_ask {A} (ev : Event) (op : St → St * result A) : M A := λ n,
  let '(s, r) := op (store n) in
  mkRun (match r with Ok a => Returns a | Err e => Fails e end)
        (set_store s n) [ev].

(** A transport call returning [(T, error)]. *)
Definition net_ask {A} (ev : Event) (op : Net → Net * result A) : M A := λ n,
  let '(t, r) := op (transport n) in
  mkRun (match r with Ok a => Returns a | Err e => Fails e end)
        (set_transport t n) [ev].

(** [c.Close()], whose returned error node.go drops; a nil [c] panics. *)
Definition close (c : option Client) : M unit :=
  match c with
  | None => panic
  | Some c => λ n,
      let '(t, _) := cl_Close c (transport n) in
      mkRun (Returns ()) (set_transport t n) [EvClose c]
  end.

(** [client.Call(method, &args, &reply)] through the client pointer; a nil
    client panics. *)
Definition call {A} (c : option Client) (r : Rpc)
    (op : Client → Net → Net * result A) : M A :=
  match c with
  | None => panic
  | Some c => net_ask (EvCall c r) (op c)
  end.

(** [for _, x := range xs { if err := body(x); err != nil { return err } }] *)
Fixpoint for_each {A} (xs : list A) (body : A → M unit) : M unit :=
  match xs with
  | [] => mret ()
  | x :: xs => body x ;; for_each xs body
  end.

(** ** node.go *)

Definition New (opts : Opts) : Node :=
  {| latest := ∅;
     neighbors := ∅;
     CdrPath := opt_CdrPath opts;
     Path := opt_Path opts;
     store := opt_Store opts;
     transport := opt_Transport opts;
     cdr := None;
     isHead := false;
     isTail := false |}.

Definition connectToNode (path : string) (pos : NeighborPos) : M unit :=
  conn ← net_ask (EvConnect path) (tr_Connect path);
  n ← get;
  let nbr := neighbor_at n pos in
  (match client nbr with
   | Some _ => close (client nbr)
   | None => mret ()
   end) ;;
  modify (set_neighbors <[pos := {| client := Some conn; path := path |}]>).

Definition writePropagated (reply : PropagateResponse) : M unit :=
  for_each (range reply) (λ '(key, forKey),
    for_each forKey (λ item,
      store_do (EvWrite key (pi_Value item) (pi_Version item))
               (store_Write key (pi_Value item) (pi_Version item)))).

Definition commitPropagated (reply : PropagateResponse) : M unit :=
  for_each (range reply) (λ '(key, forKey),
    for_each forKey (λ item,
      store_do (EvCommit key (pi_Version item))
               (store_Commit key (pi_Version item)))).

Definition propagateRequestFromItems (items : list Item) : PropagateRequest :=
  foldl (λ req item,
           <[Key item := default [] (req !! Key item) ++ [Version item]]> req)
        ∅ items.

Definition requestFwdPropagation (client : option Client) : M unit :=
  dirty ← store_ask EvAllDirty store_AllDirty;
  let args := propagateRequestFromItems dirty in
  reply ← call client (RPC_FwdPropagate args) (λ c, cl_FwdPropagate c args);
  writePropagated reply.

Definition requestBackPropagation (client : option Client) : M unit :=
  committed ← store_ask EvAllCommitted store_AllCommitted;
  let args := propagateRequestFromItems committed in
  reply ← call client (RPC_BackPropagate args) (λ c, cl_BackPropagate c args);
  commitPropagated reply.

Definition fullPropagate : M unit :=
  n ← get;
  let prevNeighbor := client (neighbor_at n NeighborPosPrev) in
  requestFwdPropagation prevNeighbor ;;
  requestBackPropagation prevNeighbor.

Definition ConnectToCoordinator : M unit :=
  n ← get;
  cdrClient ← net_ask (EvConnect (CdrPath n)) (tr_Connect (CdrPath n));
  modify (set_cdr (Some cdrClient)) ;;
  reply ← call (Some cdrClient) (RPC_AddNode (Path n))
               (λ c, cl_AddNode c (Path n));
  modify (set_isHead (IsHead reply)) ;;
  modify (set_isTail (IsTail reply)) ;;
  modify (set_neighbors
            <[NeighborPosTail := {| client := None; path := Tail reply |}]>) ;;
  (if negb (IsTail reply)
   then connectToNode (Tail reply) NeighborPosTail
   else mret ()) ;;
  if decide (Prev reply ≠ "")
  then
    connectToNode (Prev reply) NeighborPosPrev ;;
    fullPropagate
  else
    n ← get;
    if decide (path (neighbor_at n NeighborPosPrev) ≠ "")
    then close (client (neighbor_at n NeighborPosPrev))
    else mret ().

(** *** ListenAndServe

    [ListenAndServe] starts two tasks in an [errgroup.Group] and returns
    [errg.Wait()].  By the documentation of the libraries it calls:
    [http.Server.ListenAndServe] always returns a non-nil error, which is
    [http.ErrServerClosed] once [Shutdown] has been called;
    [errgroup.Group.Wait] blocks until both tasks have returned and then
    returns the first non-nil error one of them returned.  Which task is
    first is up to the scheduler, so the schedule is an argument. *)

Definition ErrServerClosed : error := "http: Server closed".

(** What the scheduler and the HTTP server contribute to a run. *)
Record ServerRun : Type := mkServerRun {
  (** the error [server.ListenAndServe] returns of its own accord (the
      address cannot be bound, say), if it does *)
  serve_error : option error;
  (** whether the group sees the server task return before the
      coordinator task *)
  serve_first : bool
}.

(** The second task: the closure around [n.ConnectToCoordinator()]. *)
Definition coordinatorTask : M unit := λ n,
  let r := ConnectToCoordinator n in
  match out r with
  | Fails err => mkRun (Fails err) (post r) (events r ++ [EvShutdown])
  | _ => r
  end.

(** How [ListenAndServe] ends: it returns an error, or never returns
    because the server keeps serving, or the process panics. *)
Inductive served : Type :=
| Exits (e : option error)
| Serving
| Crashes.

Definition ListenAndServe (srv : ServerRun) (n : Node) : served * Node * list Event :=
  let r := coordinatorTask n in
  (match out r with
   | Panics => Crashes
   | Returns _ =>
       match serve_error srv with
       | Some e => Exits (Some e)
       | None => Serving
       end
   | Fails err =>
       let served_err := default ErrServerClosed (serve_error srv) in
       Exits (Some (if serve_first srv then served_err else err))
   end, post r, events r).

(** ** Vocabulary of the properties *)

(** The items of a response, each under its key, in the order the two
    nested loops of [writePropagated] and [commitPropagated] reach them. *)
Definition entries (reply : PropagateResponse) : list (string * PropagatedItem) :=
  range reply ≫= λ '(key, forKey), pair key <$> forKey.

(** The store call, and its record in the trace, that [writePropagated]
    makes for one item of a response; likewise for [commitPropagated]. *)
Definition write_call (e : string * PropagatedItem) : St → St * option error :=
  store_Write e.1 (pi_Value e.2) (pi_Version e.2).

Definition write_event (e : string * PropagatedItem) : Event :=
  EvWrite e.1 (pi_Value e.2) (pi_Version e.2).

Definition commit_call (e : string * PropagatedItem) : St → St * option error :=
  store_Commit e.1 (pi_Version e.2).

Definition commit_event (e : string * PropagatedItem) : Event :=
  EvCommit e.1 (pi_Version e.2).

(** The two halves of the catch-up protocol share their shape; a
    direction picks the function that applies a response, its store call
    and the record of that call. *)
Inductive direction : Type := Forward | Back.

Definition applyPropagated (d : direction) : PropagateResponse → M unit :=
  match d with
  | Forward => writePropagated
  | Back => commitPropagated
  end.

Definition store_call (d : direction) : string * PropagatedItem → St → St * option error :=
  match d with
  | Forward => write_call
  | Back => commit_call
  end.

Definition store_event (d : direction) : string * PropagatedItem → Event :=
  match d with
  | Forward => write_event
  | Back => commit_event
  end.

(** [run_all ops s = Some s']: the store calls [ops], made in this order
    from the store [s], all returned nil and left the store [s']. *)
Fixpoint run_all (ops : list (St → St * option error)) (s : St) : option St :=
  match ops with
  | [] => Some s
  | op :: ops =>
      match op s with
      | (s', None) => run_all ops s'
      | (_, Some _) => None
      end
  end.

(** Calls that belong to forward propagation, and to back propagation. *)
Definition is_fwd (ev : Event) : bool :=
  match ev with
  | EvAllDirty | EvCall _ (RPC_FwdPropagate _) | EvWrite _ _ _ => true
  | _ => false
  end.

Definition is_back (ev : Event) : bool :=
  match ev with
  | EvAllCommitted | EvCall _ (RPC_BackPropagate _) | EvCommit _ _ => true
  | _ => false
  end.

(** The versions of the items stored under [key], in list order. *)
Definition versionsOf (key : string) (items : list Item) : list N :=
  Version <$> filter (λ it, Key it = key) items.

(** The greatest version among the items of [key]; 0 when there is none,
    which is also what Go reads from [latest] for a key it does not hold. *)
Definition max_version (key : string) (items : list Item) : N :=
  foldr N.max 0%N (versionsOf key items).

(** The [latest] map agrees with what the store enumerates. *)
Definition latest_matches_store (n : Node) : Prop :=
  ∃ dirty committed,
    (store_AllDirty (store n)).2 = Ok dirty ∧
    (store_AllCommitted (store n)).2 = Ok committed ∧
    ∀ key, default 0%N (latest n !! key) = max_version key (dirty ++ committed).

(** The catch-up protocol was started: [store.AllDirty] is called by
    [requestFwdPropagation] only, as the first step of [fullPropagate]. *)
Definition catchup_run (t : list Event) : Prop := EvAllDirty ∈ t.

(** Lines 132 to 134: the role bits and the tail record of a reply. *)
Definition install_reply (reply : NodeMeta) (n : Node) : Node :=
  set_neighbors <[NeighborPosTail := {| client := None; path := Tail reply |}]>
    (set_isTail (IsTail reply) (set_isHead (IsHead reply) n)).

(** Lines 136 to 142: the connection to the tail. *)
Definition connectTail (reply : NodeMeta) : M unit :=
  if negb (IsTail reply)
  then connectToNode (Tail reply) NeighborPosTail
  else mret ().

(** Lines 144 to 156: the connection to the predecessor and the catch-up. *)
Definition connectPrev (reply : NodeMeta) : M unit :=
  if decide (Prev reply ≠ "")
  then
    connectToNode (Prev reply) NeighborPosPrev ;;
    fullPropagate
  else
    n ← get;
    if decide (path (neighbor_at n NeighborPosPrev) ≠ "")
    then close (client (neighbor_at n NeighborPosPrev))
    else mret ().

(** A method leaves a component [f] of the node as it found it. *)
Definition keeps {X A : Type} (f : Node → X) (m : M A) : Prop :=
  ∀ n, f (post (m n)) = f n.

(** A component [f] of the node that calls on the store and on the
    transport cannot change: anything but the fields [store] and
    [transport]. *)
Class Frame {X : Type} (f : Node → X) : Prop := {
  frame_store : ∀ s n, f (set_store s n) = f n;
  frame_transport : ∀ t n, f (set_transport t n) = f n
}.

#[global] Instance latest_frame : Frame latest.
Proof. by split. Qed.

#[global] Instance isTail_frame : Frame isTail.
Proof. by split. Qed.

#[global] Instance neighbor_frame (pos : NeighborPos) :
  Frame (λ n, neighbors n !! pos).
Proof. by split. Qed.

#[global] Instance isHead_frame : Frame isHead.
Proof. by split. Qed.

#[global] Instance cdr_frame : Frame cdr.
Proof. by split. Qed.

(** Whether [transport.Connect] reaches [p] from the node's transport. *)
Definition connects (p : string) (n : Node) : bool :=
  match tr_Connect p (transport n) with
  | (_, Ok _) => true
  | (_, Err _) => false
  end.

(** ** The rest of node.go *)

(** [resetNeighbor(n *neighbor)].  The pointer is to a [neighbor] variable
    of the caller (an element of a Go map has no address), so the function
    takes the record and returns the one it leaves in the variable; when it
    panics the variable is not written. *)
Definition resetNeighbor (nbr : neighbor) : M neighbor :=
  close (client nbr) ;;
  mret neighbor_zero.

(** ** More vocabulary *)

(** The two round-trips by direction: the store enumeration, its record,
    the remote call and the request function. *)
Definition store_All (d : direction) : St → St * result (list Item) :=
  match d with
  | Forward => store_AllDirty
  | Back => store_AllCommitted
  end.

Definition all_event (d : direction) : Event :=
  match d with
  | Forward => EvAllDirty
  | Back => EvAllCommitted
  end.

Definition propagate_rpc (d : direction) (args : PropagateRequest) : Rpc :=
  match d with
  | Forward => RPC_FwdPropagate args
  | Back => RPC_BackPropagate args
  end.

Definition cl_Propagate (d : direction)
    : Client → PropagateRequest → Net → Net * result PropagateResponse :=
  match d with
  | Forward => cl_FwdPropagate
  | Back => cl_BackPropagate
  end.

Definition requestPropagation (d : direction) : option Client → M unit :=
  match d with
  | Forward => requestFwdPropagation
  | Back => requestBackPropagation
  end.

(** The key a store call is made for. *)
Definition event_key (ev : Event) : option string :=
  match ev with
  | EvWrite key _ _ | EvCommit key _ => Some key
  | _ => None
  end.

(** The total number of versions a request lists. *)
Definition request_size (req : PropagateRequest) : nat :=
  map_fold (λ _ versions acc, length versions + acc) 0 req.

End Node.

Arguments Returns {A} a.
Arguments Fails {A} e.
Arguments Panics {A}.
Arguments mkRun {St Net Client A} out post events.
Arguments out {St Net Client A} r.
Arguments post {St Net Client A} r.
Arguments events {St Net Client A} r.

(** ** Collaborators to run the node against *)

(** Modelled from the spec: the store backends live outside node.go.  An
    in-memory store that follows the contract of section 4.1, used to run
    the node on concrete inputs. *)
Module MemStore.

Definition t : Type := list Item.

Definition is_version (key : string) (version : N) (it : Item) : bool :=
  String.eqb (Key it) key && N.eqb (Version it) version.

Definition has (key : string) (version : N) (s : t) : bool :=
  existsb (is_version key version) s.

Definition newest (key : string) (s : t) : option Item :=
  foldl (λ best it,
           if String.eqb (Key it) key
           then match best with
                | Some b => if N.ltb (Version b) (Version it) then Some it else best
                | None => Some it
                end
           else best) None s.

Definition Read (key : string) (s : t) : t * result Item :=
  match newest key s with
  | None => (s, Err ErrNotFound)
  | Some it => (s, if Committed it then Ok it else Err ErrDirtyItem)
  end.

Definition Write (key : string) (value : list byte) (version : N) (s : t)
    : t * option error :=
  if has key version s
  then (s, Some "that version already exists")
  else (s ++ [mkItem version false value key], None).

Definition Commit (key : string) (version : N) (s : t) : t * option error :=
  if has key version s
  then (map (λ it, if is_version key version it
                   then mkItem (Version it) true (Value it) (Key it)
                   else it) s, None)
  else (s, Some ErrNotFound).

Definition ReadVersion (key : string) (version : N) (s : t) : t * result Item :=
  match List.find (is_version key version) s with
  | Some it => (s, Ok it)
  | None => (s, Err ErrNotFound)
  end.

Definition newer (known : PropagateRequest) (it : Item) : bool :=
  forallb (λ v, N.ltb v (Version it)) (default [] (known !! Key it)).

Definition AllDirty (s : t) : t * result (list Item) :=
  (s, Ok (List.filter (λ it, negb (Committed it)) s)).

Definition AllCommitted (s : t) : t * result (list Item) :=
  (s, Ok (List.filter Committed s)).

Definition AllNewerDirty (known : PropagateRequest) (s : t) : t * result (list Item) :=
  (s, Ok (List.filter (λ it, negb (Committed it) && newer known it) s)).

Definition AllNewerCommitted (known : PropagateRequest) (s : t) : t * result (list Item) :=
  (s, Ok (List.filter (λ it, Committed it && newer known it) s)).

#[global] Instance mem_storer : storer t := {|
  store_Read := Read;
  store_Write := Write;
  store_Commit := Commit;
  store_ReadVersion := ReadVersion;
  store_AllNewerCommitted := AllNewerCommitted;
  store_AllNewerDirty := AllNewerDirty;
  store_AllDirty := AllDirty;
  store_AllCommitted := AllCommitted
|}.

End MemStore.

(** A scripted transport: connections are numbered in the order they are
  opened, paths listed in [refused] cannot be reached, and every peer
  answers with the replies the script holds. *)
Module ScriptNet.

Record t : Type := mk {
  next : nat;
  opened : list nat;
  refused : list string;
  meta : NodeMeta;
  fwd : PropagateResponse;
  back : PropagateResponse
}.

Definition Connect (p : string) (net : t) : t * result nat :=
  if existsb (String.eqb p) (refused net)
  then (net, Err "connection refused")
  else (mk (S (next net)) (opened net ++ [next net]) (refused net)
           (meta net) (fwd net) (back net),
        Ok (next net)).

Definition Close (c : nat) (net : t) : t * option error :=
  (mk (next net) (List.filter (λ o, negb (Nat.eqb o c)) (opened net))
      (refused net) (meta net) (fwd net) (back net),
   None).

#[global] Instance script_transporter : Transporter t nat := {|
  tr_Connect := Connect;
  cl_AddNode := λ _ _ net, (net, Ok (meta net));
  cl_FwdPropagate := λ _ _ net, (net, Ok (fwd net));
  cl_BackPropagate := λ _ _ net, (net, Ok (back net));
  cl_Close := Close
|}.

(** The coordinator hands out a new reply. *)
Definition with_meta (m : NodeMeta) (net : t) : t :=
  mk (next net) (opened net) (refused net) m (fwd net) (back net).

End ScriptNet.

(** A store that is out of service: every call returns an error. *)
Module DownStore.

Definition unavailable : error := "store unavailable".

Definition down_storer : storer unit := {|
  store_Read := λ _ s, (s, Err unavailable);
  store_Write := λ _ _ _ s, (s, Some unavailable);
  store_Commit := λ _ _ s, (s, Some unavailable);
  store_ReadVersion := λ _ _ s, (s, Err unavailable);
  store_AllNewerCommitted := λ _ s, (s, Err unavailable);
  store_AllNewerDirty := λ _ s, (s, Err unavailable);
  store_AllDirty := λ s, (s, Err unavailable);
  store_AllCommitted := λ s, (s, Err unavailable)
|}.

End DownStore.

(** A transport on which connections open and every call is lost; the
    state counts the connections opened. *)
Module LossyNet.

Definition lost : error := "connection lost".

Definition lossy_transporter : Transporter nat nat := {|
  tr_Connect := λ _ net, (S net, Ok net);
  cl_AddNode := λ _ _ net, (net, Err lost);
  cl_FwdPropagate := λ _ _ net, (net, Err lost);
  cl_BackPropagate := λ _ _ net, (net, Err lost);
  cl_Close := λ _ net, (net, None)
|}.

End LossyNet.

(** Two orders in which [range] may visit a response. *)
Program Definition range_listed : RangeOrder :=
  {| range := map_to_list |}.
Next Obligation. done. Qed.

Program Definition range_reversed : RangeOrder :=
  {| range := λ m, reverse (map_to_list m) |}.
Next Obligation. intros m. by rewrite reverse_Permutation. Qed.

(** ** Concrete runs *)

(** A node with a small store, a coordinator and two neighbors, on the
    scripted transport. *)
Module Scenario.

Abbreviation node := (@Node MemStore.t ScriptNet.t nat).

Definition item (key : string) (version : N) (committed : bool) : Item :=
  mkItem version committed [x61] key.

Definition sent (version : N) (committed : bool) : PropagatedItem :=
  mkPropagatedItem version committed [x61].

(** What the coordinator may answer: the node is in the middle of the
    chain, is its tail, or is its head. *)
Definition meta_middle : NodeMeta := mkNodeMeta false false "tail:1" "prev:1".
Definition meta_tail : NodeMeta := mkNodeMeta false true "self:1" "prev:1".
Definition meta_head : NodeMeta := mkNodeMeta true false "tail:1" "".

(** What the predecessor may answer. *)
Definition fwd_reply : PropagateResponse :=
  {[ "x" := [sent 2 false; sent 3 false]; "y" := [sent 1 false] ]}.

Definition back_reply : PropagateResponse :=
  {[ "x" := [sent 1 true; sent 2 true] ]}.

(** A forward reply whose second item is a version the node already holds. *)
Definition clash_reply : PropagateResponse :=
  {[ "x" := [sent 2 false; sent 1 false; sent 3 false] ]}.

Definition net (meta : NodeMeta) (refused : list string)
    (fwd back : PropagateResponse) : ScriptNet.t :=
  ScriptNet.mk 0 [] refused meta fwd back.

Definition opts (transport : ScriptNet.t) : Opts :=
  mkOpts [item "x" 1 false] "self:1" "cdr:1" transport.

(** The node as it starts in each setting. *)
Definition middle : node := New (opts (net meta_middle [] fwd_reply back_reply)).
Definition tail : node := New (opts (net meta_tail [] fwd_reply back_reply)).
Definition head : node := New (opts (net meta_head [] ∅ ∅)).
Definition quiet : node := New (opts (net meta_middle [] ∅ ∅)).
Definition stranded : node := New (opts (net meta_middle ["cdr:1"] ∅ ∅)).

Definition connect (n : node) : Run unit :=
  ConnectToCoordinator (range_impl := range_listed) n.

(** The coordinator answers the next call with [meta]. *)
Definition told (meta : NodeMeta) (n : node) : node :=
  set_transport (ScriptNet.with_meta meta (transport n)) n.

(** The head after it joined, and the same node once the coordinator names
    another tail. *)
Definition head_joined : node := post (connect head).
Definition head_retold : node :=
  told (mkNodeMeta true false "tail:2" "") head_joined.

(** A middle node that joined once and connects to the coordinator again,
    with the same predecessor reported. *)
Definition quiet_joined : node := post (connect quiet).

(** A response whose only key carries no item. *)
Definition hollow_reply : PropagateResponse := {[ "x" := [] ]}.

(** A node that reaches the coordinator and not the tail. *)
Definition cut_off : node := New (opts (net meta_middle ["tail:1"] ∅ ∅)).

(** The middle node that joined, when the coordinator tells it that it is
    now the head: no predecessor is reported any more. *)
Definition promoted : node := told meta_head quiet_joined.

(** The middle node with its predecessor connected, before the catch-up. *)
Definition with_predecessor : node :=
  post (connectToNode "prev:1" NeighborPosPrev middle).

(** A node whose store is out of service, and a node on the lossy
    transport. *)
Definition storeless : @Node unit ScriptNet.t nat :=
  New (mkOpts () "self:1" "cdr:1" (net meta_middle [] ∅ ∅)).

Definition unheard : @Node MemStore.t nat nat :=
  New (mkOpts [item "x" 1 false] "self:1" "cdr:1" 0).

End Scenario.

(** * Properties *)

Section NodeProps.

Context {St Net Client : Type}.
Context {store_impl : storer St} {transport_impl : Transporter Net Client}.
Context {range_impl : RangeOrder}.

Implicit Types (n : @Node St Net Client) (c : Client) (tr : list (@Event Client)).
Implicit Types (reply : PropagateResponse).

(** ** The monad *)

Lemma bind_run {A B} (m : M A) (k : A → M B) n :
  (m ≫= k) n =
  match out (m n) with
  | Returns a =>
      let r' := k a (post (m n)) in
      mkRun (out r') (post r') (events (m n) ++ events r')
  | Fails e => mkRun (Fails e) (post (m n)) (events (m n))
  | Panics => mkRun Panics (post (m n)) (events (m n))
  end.
Proof. reflexivity. Qed.

Lemma bind_ext {A B} (m m' : M A) (k k' : A → M B) n :
  (∀ n, m n = m' n) → (∀ a n, k a n = k' a n) →
  (m ≫= k) n = (m' ≫= k') n.
Proof.
  intros Hm Hk. rewrite !bind_run, Hm.
  destruct (out (m' n)); simpl; [by rewrite Hk | done | done].
Qed.

Lemma bind_assoc {A B C} (m : M A) (k : A → M B) (k' : B → M C) n :
  ((m ≫= k) ≫= k') n = (m ≫= λ a, k a ≫= k') n.
Proof.
  rewrite !bind_run. destruct (m n) as [[a|e|] p ev]; simpl; [|done..].
  rewrite bind_run. destruct (k a p) as [[b|e|] p' ev']; simpl; [|done..].
  by rewrite app_assoc.
Qed.

Lemma ret_bind {A B} (a : A) (k : A → M B) n : (mret a ≫= k) n = k a n.
Proof. rewrite bind_run. simpl. by destruct (k a n). Qed.

Lemma store_do_run (ev : Event) (op : St → St * option error) n :
  store_do ev op n =
  mkRun (match (op (store n)).2 with None => Returns () | Some e => Fails e end)
        (set_store (op (store n)).1 n) [ev].
Proof. unfold store_do. by destruct (op (store n)). Qed.

Lemma store_ask_run {A} (ev : Event) (op : St → St * result A) n :
  store_ask ev op n =
  mkRun (match (op (store n)).2 with Ok a => Returns a | Err e => Fails e end)
        (set_store (op (store n)).1 n) [ev].
Proof. unfold store_ask. by destruct (op (store n)). Qed.

Lemma net_ask_run {A} (ev : Event) (op : Net → Net * result A) n :
  net_ask ev op n =
  mkRun (match (op (transport n)).2 with Ok a => Returns a | Err e => Fails e end)
        (set_transport (op (transport n)).1 n) [ev].
Proof. unfold net_ask. by destruct (op (transport n)). Qed.

(** ** Loops *)

Lemma for_each_app {A} (xs ys : list A) (body : A → M unit) n :
  for_each (xs ++ ys) body n = (for_each xs body ;; for_each ys body) n.
Proof.
  revert n. induction xs as [|x xs IH]; intros n; simpl.
  - by rewrite ret_bind.
  - rewrite bind_assoc. apply bind_ext; [done | intros; apply IH].
Qed.

Lemma for_each_fmap {A B} (f : A → B) (xs : list A) (body : B → M unit) n :
  for_each (f <$> xs) body n = for_each xs (body ∘ f) n.
Proof.
  revert n. induction xs as [|x xs IH]; intros n; simpl; [done|].
  apply bind_ext; [done | intros; apply IH].
Qed.

(** Two nested loops visit the flattened list. *)
Lemma for_each_nested {A B} (xs : list (A * list B)) (body : A * B → M unit) n :
  for_each xs (λ '(a, bs), for_each bs (λ b, body (a, b))) n =
  for_each (xs ≫= λ '(a, bs), pair a <$> bs) body n.
Proof.
  revert n. induction xs as [|[a bs] xs IH]; intros n; simpl; [done|].
  rewrite for_each_app. apply bind_ext; [|intros; apply IH].
  intros n'. by rewrite for_each_fmap.
Qed.

(** A loop of store calls stops at the first one that fails: the calls
    before it were made and succeeded, the failing call is the last one
    made, and the node is left with the store that call left. *)
Lemma for_each_store_do {A} (ev : A → Event) (op : A → St → St * option error)
    (xs : list A) n :
  let r := for_each xs (λ x, store_do (ev x) (op x)) n in
  match out r with
  | Returns _ =>
      ∃ s, run_all (op <$> xs) (store n) = Some s ∧
           post r = set_store s n ∧ events r = ev <$> xs
  | Fails e =>
      ∃ done x rest s1 s2,
        xs = done ++ x :: rest ∧
        run_all (op <$> done) (store n) = Some s1 ∧
        op x s1 = (s2, Some e) ∧
        post r = set_store s2 n ∧
        events r = ev <$> (done ++ [x])
  | Panics => False
  end.
Proof.
  revert n. induction xs as [|x xs IH]; intros n; cbv zeta.
  - simpl. exists (store n). by destruct n.
  - cbn [for_each]. rewrite bind_run, store_do_run.
    destruct (op x (store n)) as [s [e|]] eqn:Hop; cbn [out post events fst snd].
    + exists [], x, xs, (store n), s. by rewrite Hop.
    + specialize (IH (set_store s n)). cbv zeta in IH.
      destruct (out (for_each xs _ (set_store s n))) as [[]|e|] eqn:Hout;
        cbn [out post events].
      * destruct IH as (s' & Hrun & Hpost & Hev).
        exists s'. cbn. rewrite Hop. by rewrite Hpost, Hev.
      * destruct IH as (done & y & rest & s1 & s2 & -> & Hrun & Hy & Hpost & Hev).
        exists (x :: done), y, rest, s1, s2. cbn. rewrite Hop.
        by rewrite Hpost, Hev.
      * done.
Qed.

Lemma for_each_store_do_ok {A} (ev : A → Event) (op : A → St → St * option error)
    (xs : list A) n s :
  run_all (op <$> xs) (store n) = Some s →
  for_each xs (λ x, store_do (ev x) (op x)) n =
  mkRun (Returns ()) (set_store s n) (ev <$> xs).
Proof.
  revert n. induction xs as [|x xs IH]; intros n; cbn [fmap list_fmap run_all for_each].
  - intros [= <-]. by destruct n.
  - destruct (op x (store n)) as [s' [e|]] eqn:Hop; [done|]. intros Hrun.
    rewrite bind_run, store_do_run, Hop. cbn [out post events fst snd].
    by rewrite (IH (set_store s' n) Hrun).
Qed.

Lemma for_each_store_do_fails {A} (ev : A → Event) (op : A → St → St * option error)
    (done : list A) (x : A) (rest : list A) n s1 s2 e :
  run_all (op <$> done) (store n) = Some s1 →
  op x s1 = (s2, Some e) →
  for_each (done ++ x :: rest) (λ x, store_do (ev x) (op x)) n =
  mkRun (Fails e) (set_store s2 n) (ev <$> (done ++ [x])).
Proof.
  revert n. induction done as [|d done IH]; intros n;
    cbn [fmap list_fmap run_all for_each app].
  - intros [= <-] Hx. by rewrite bind_run, store_do_run, Hx.
  - destruct (op d (store n)) as [s' [e'|]] eqn:Hop; [done|]. intros Hrun Hx.
    rewrite bind_run, store_do_run, Hop. cbn [out post events fst snd].
    by rewrite (IH (set_store s' n) Hrun Hx).
Qed.

Lemma for_each_store_do_events {A} (ev : A → Event) (op : A → St → St * option error)
    (P : Event → Prop) (xs : list A) n :
  (∀ x, P (ev x)) →
  Forall P (events (for_each xs (λ x, store_do (ev x) (op x)) n)).
Proof.
  intros HP. pose proof (for_each_store_do ev op xs n) as Hrun. cbv zeta in Hrun.
  destruct (out (for_each xs _ n)) as [[]|e|].
  - destruct Hrun as (s & _ & _ & ->). by apply Forall_fmap, Forall_true.
  - destruct Hrun as (done & x & rest & s1 & s2 & _ & _ & _ & _ & ->).
    by apply Forall_fmap, Forall_true.
  - done.
Qed.

(** ** Applying a response *)

Lemma writePropagated_loop reply n :
  writePropagated reply n =
  for_each (entries reply) (λ e, store_do (write_event e) (write_call e)) n.
Proof.
  unfold writePropagated, entries.
  apply (for_each_nested (range reply)
           (λ e, store_do (write_event e) (write_call e))).
Qed.

Lemma commitPropagated_loop reply n :
  commitPropagated reply n =
  for_each (entries reply) (λ e, store_do (commit_event e) (commit_call e)) n.
Proof.
  unfold commitPropagated, entries.
  apply (for_each_nested (range reply)
           (λ e, store_do (commit_event e) (commit_call e))).
Qed.

Lemma applyPropagated_loop d reply n :
  applyPropagated d reply n =
  for_each (entries reply) (λ e, store_do (store_event d e) (store_call d e)) n.
Proof. destruct d; [apply writePropagated_loop | apply commitPropagated_loop]. Qed.

(** Every item of a response is reached by the loops, whatever the order
    in which [range] visits the keys. *)
Lemma entries_elem reply key forKey item :
  reply !! key = Some forKey → item ∈ forKey → (key, item) ∈ entries reply.
Proof.
  intros Hkey Hitem. unfold entries. apply list_elem_of_bind.
  exists (key, forKey). split; [by apply list_elem_of_fmap_2|].
  rewrite range_perm. by apply elem_of_map_to_list.
Qed.

(** C9. Applying a response is not atomic.  When the store call for an
    item of the response fails (a [Write] in [writePropagated], a [Commit]
    in [commitPropagated]) after the calls for the items [done] before it
    succeeded, the function returns that very error; the calls it made are
    those for [done] and the failing one, in this order, so the items after
    it are never applied; and the node keeps the store as the failing call
    left it, with the items of [done] applied: nothing is rolled back. *)
Theorem applyPropagated_not_atomic d reply n done x rest s1 s2 e :
  entries reply = done ++ x :: rest →
  run_all (store_call d <$> done) (store n) = Some s1 →
  store_call d x s1 = (s2, Some e) →
  let r := applyPropagated d reply n in
  out r = Fails e ∧
  post r = set_store s2 n ∧
  events r = store_event d <$> (done ++ [x]).
Proof.
  intros Hentries Hdone Hx. cbv zeta.
  rewrite applyPropagated_loop, Hentries.
  by rewrite (for_each_store_do_fails _ _ done x rest n s1 s2 e Hdone Hx).
Qed.

(** ** The two round-trips *)

Lemma requestFwdPropagation_run n c s1 dirty t1 reply :
  store_AllDirty (store n) = (s1, Ok dirty) →
  cl_FwdPropagate c (propagateRequestFromItems dirty) (transport n) = (t1, Ok reply) →
  requestFwdPropagation (Some c) n =
  let r := writePropagated reply (set_transport t1 (set_store s1 n)) in
  mkRun (out r) (post r)
        (EvAllDirty :: EvCall c (RPC_FwdPropagate (propagateRequestFromItems dirty))
                    :: events r).
Proof.
  intros Hdirty Hcall. unfold requestFwdPropagation.
  rewrite bind_run, store_ask_run, Hdirty. cbn [out post events fst snd].
  rewrite bind_run. unfold call. rewrite net_ask_run. cbn [transport set_store].
  by rewrite Hcall.
Qed.

Lemma requestBackPropagation_run n c s1 committed t1 reply :
  store_AllCommitted (store n) = (s1, Ok committed) →
  cl_BackPropagate c (propagateRequestFromItems committed) (transport n) = (t1, Ok reply) →
  requestBackPropagation (Some c) n =
  let r := commitPropagated reply (set_transport t1 (set_store s1 n)) in
  mkRun (out r) (post r)
        (EvAllCommitted :: EvCall c (RPC_BackPropagate (propagateRequestFromItems committed))
                        :: events r).
Proof.
  intros Hcommitted Hcall. unfold requestBackPropagation.
  rewrite bind_run, store_ask_run, Hcommitted. cbn [out post events fst snd].
  rewrite bind_run. unfold call. rewrite net_ask_run. cbn [transport set_store].
  by rewrite Hcall.
Qed.

(** C5. A forward-propagation round-trip in which no store write fails
    returns nil and has written every item of the predecessor's response:
    for each item under each key of the response, [Store.Write(key, value,
    version)] was called.  The store calls made after the enumeration are
    exactly these writes, one per item, and the node keeps the store they
    leave. *)
Theorem requestFwdPropagation_writes_all n c s1 dirty t1 reply s2 :
  store_AllDirty (store n) = (s1, Ok dirty) →
  cl_FwdPropagate c (propagateRequestFromItems dirty) (transport n) = (t1, Ok reply) →
  run_all (write_call <$> entries reply) s1 = Some s2 →
  let r := requestFwdPropagation (Some c) n in
  out r = Returns () ∧
  store (post r) = s2 ∧
  (∀ key forKey item,
     reply !! key = Some forKey → item ∈ forKey →
     EvWrite key (pi_Value item) (pi_Version item) ∈ events r) ∧
  events r = EvAllDirty
               :: EvCall c (RPC_FwdPropagate (propagateRequestFromItems dirty))
               :: (write_event <$> entries reply).
Proof.
  intros Hdirty Hcall Hrun. cbv zeta.
  rewrite (requestFwdPropagation_run n c s1 dirty t1 reply Hdirty Hcall).
  cbv zeta. rewrite writePropagated_loop.
  rewrite (for_each_store_do_ok _ _ _ _ s2) by done.
  cbn [out post events]. repeat split.
  intros key forKey item Hkey Hitem. do 2 apply list_elem_of_further.
  apply (list_elem_of_fmap_2 write_event _ (key, item)).
  by eapply entries_elem.
Qed.

(** C6. A back-propagation round-trip in which no store commit fails
    returns nil and has committed every item of the predecessor's response:
    for each item under each key of the response, [Store.Commit(key,
    version)] was called.  The store calls made after the enumeration are
    exactly these commits, one per item, and the node keeps the store they
    leave. *)
Theorem requestBackPropagation_commits_all n c s1 committed t1 reply s2 :
  store_AllCommitted (store n) = (s1, Ok committed) →
  cl_BackPropagate c (propagateRequestFromItems committed) (transport n) = (t1, Ok reply) →
  run_all (commit_call <$> entries reply) s1 = Some s2 →
  let r := requestBackPropagation (Some c) n in
  out r = Returns () ∧
  store (post r) = s2 ∧
  (∀ key forKey item,
     reply !! key = Some forKey → item ∈ forKey →
     EvCommit key (pi_Version item) ∈ events r) ∧
  events r = EvAllCommitted
               :: EvCall c (RPC_BackPropagate (propagateRequestFromItems committed))
               :: (commit_event <$> entries reply).
Proof.
  intros Hcommitted Hcall Hrun. cbv zeta.
  rewrite (requestBackPropagation_run n c s1 committed t1 reply Hcommitted Hcall).
  cbv zeta. rewrite commitPropagated_loop.
  rewrite (for_each_store_do_ok _ _ _ _ s2) by done.
  cbn [out post events]. repeat split.
  intros key forKey item Hkey Hitem. do 2 apply list_elem_of_further.
  apply (list_elem_of_fmap_2 commit_event _ (key, item)).
  by eapply entries_elem.
Qed.

(** ** The propagate request *)

Lemma propagateRequest_foldl (items : list Item) (acc : PropagateRequest) key :
  foldl (λ req item,
           <[Key item := default [] (req !! Key item) ++ [Version item]]> req)
        acc items !! key =
  match versionsOf key items with
  | [] => acc !! key
  | vs => Some (default [] (acc !! key) ++ vs)
  end.
Proof.
  revert acc. induction items as [|it items IH]; intros acc; [done|].
  cbn [foldl]. rewrite IH. unfold versionsOf. rewrite filter_cons.
  destruct (decide (Key it = key)) as [->|Hne].
  - rewrite fmap_cons, lookup_insert_eq. cbn [default].
    destruct (Version <$> filter _ items); [done|].
    unfold id. by rewrite <-app_assoc.
  - by rewrite lookup_insert_ne.
Qed.

(** C4. The request built from a list of items maps each key to exactly
    the versions of the items with that key, in list order, and has no
    entry for a key that no item carries.  Forward propagation sends the
    request built from what [AllDirty] returned, back propagation the one
    built from what [AllCommitted] returned. *)
Theorem propagateRequest_exact items key n c s1 dirty s1' committed :
  store_AllDirty (store n) = (s1, Ok dirty) →
  store_AllCommitted (store n) = (s1', Ok committed) →
  propagateRequestFromItems items !! key =
    match versionsOf key items with
    | [] => None
    | vs => Some vs
    end ∧
  (∃ rest, events (requestFwdPropagation (Some c) n) =
           EvAllDirty
             :: EvCall c (RPC_FwdPropagate (propagateRequestFromItems dirty))
             :: rest ∧ Forall is_fwd rest) ∧
  (∃ rest, events (requestBackPropagation (Some c) n) =
           EvAllCommitted
             :: EvCall c (RPC_BackPropagate (propagateRequestFromItems committed))
             :: rest ∧ Forall is_back rest).
Proof.
  intros Hdirty Hcommitted. split; [|split].
  - unfold propagateRequestFromItems. rewrite propagateRequest_foldl.
    by destruct (versionsOf key items).
  - unfold requestFwdPropagation.
    rewrite bind_run, store_ask_run, Hdirty. cbn [out post events fst snd].
    rewrite bind_run. unfold call. rewrite net_ask_run.
    destruct (cl_FwdPropagate _ _ _) as [t1 [reply|e]]; cbn [out post events fst snd].
    + eexists. split; [done|]. rewrite writePropagated_loop.
      by apply for_each_store_do_events.
    + by eexists.
  - unfold requestBackPropagation.
    rewrite bind_run, store_ask_run, Hcommitted. cbn [out post events fst snd].
    rewrite bind_run. unfold call. rewrite net_ask_run.
    destruct (cl_BackPropagate _ _ _) as [t1 [reply|e]]; cbn [out post events fst snd].
    + eexists. split; [done|]. rewrite commitPropagated_loop.
      by apply for_each_store_do_events.
    + by eexists.
Qed.

(** ** The catch-up protocol *)

Lemma requestFwdPropagation_events (oc : option Client) n :
  ∃ rest, events (requestFwdPropagation oc n) = EvAllDirty :: rest ∧
          Forall is_fwd rest.
Proof.
  unfold requestFwdPropagation. rewrite bind_run, store_ask_run.
  destruct (store_AllDirty (store n)) as [s1 [dirty|e]]; cbn [out post events fst snd];
    [|by eexists].
  rewrite bind_run. destruct oc as [c|]; [|by eexists].
  unfold call. rewrite net_ask_run.
  destruct (cl_FwdPropagate _ _ _) as [t1 [reply|e]]; cbn [out post events fst snd].
  - eexists. split; [done|]. constructor; [done|].
    rewrite writePropagated_loop. by apply for_each_store_do_events.
  - eexists. split; [done|]. by repeat constructor.
Qed.

Lemma requestBackPropagation_events (oc : option Client) n :
  Forall is_back (events (requestBackPropagation oc n)).
Proof.
  unfold requestBackPropagation. rewrite bind_run, store_ask_run.
  destruct (store_AllCommitted (store n)) as [s1 [committed|e]];
    cbn [out post events fst snd]; [|by repeat constructor].
  rewrite bind_run. destruct oc as [c|]; [|by repeat constructor].
  unfold call. rewrite net_ask_run.
  destruct (cl_BackPropagate _ _ _) as [t1 [reply|e]]; cbn [out post events fst snd].
  - do 2 (constructor; [done|]).
    rewrite commitPropagated_loop. by apply for_each_store_do_events.
  - by repeat constructor.
Qed.

(** C1. In [fullPropagate] forward propagation always comes first: the
    calls of the run are those of [requestFwdPropagation] (the store
    enumeration of dirty items, the request to the predecessor and the
    writes), followed by calls of back propagation only.  Back propagation
    runs on the node forward propagation leaves, and only when forward
    propagation returned nil; when it returned an error (or panicked), no
    call of back propagation is made and [fullPropagate] ends the same
    way. *)
Theorem fullPropagate_forward_first n :
  let oc := client (neighbor_at n NeighborPosPrev) in
  let fwd := requestFwdPropagation oc n in
  let r := fullPropagate n in
  ∃ tb, events r = events fwd ++ tb ∧
        head (events fwd) = Some EvAllDirty ∧
        Forall is_fwd (events fwd) ∧
        Forall is_back tb ∧
        match out fwd with
        | Returns _ =>
            let back := requestBackPropagation oc (post fwd) in
            tb = events back ∧ out r = out back ∧ post r = post back
        | Fails e => tb = [] ∧ out r = Fails e ∧ post r = post fwd
        | Panics => tb = [] ∧ out r = Panics ∧ post r = post fwd
        end.
Proof.
  cbv zeta. unfold fullPropagate. rewrite bind_run. cbn [get out post events app].
  set (oc := client (neighbor_at n NeighborPosPrev)).
  destruct (requestFwdPropagation_events oc n) as (rest & Hev & Hrest).
  rewrite bind_run.
  destruct (out (requestFwdPropagation oc n)) as [[]|e|] eqn:Hout;
    cbn [out post events].
  - exists (events (requestBackPropagation oc (post (requestFwdPropagation oc n)))).
    rewrite Hev. repeat split; [by constructor|].
    apply requestBackPropagation_events.
  - exists []. rewrite app_nil_r, Hev. repeat split; by constructor.
  - exists []. rewrite app_nil_r, Hev. repeat split; by constructor.
Qed.

(** ** What a method leaves untouched *)

Section Keeps.

Context {X : Type} (f : @Node St Net Client → X) `{!Frame f}.

Lemma keeps_ret {A} (a : A) : keeps f (mret a).
Proof. by intros n. Qed.

Lemma keeps_get : keeps f get.
Proof. by intros n. Qed.

Lemma keeps_panic {A} : keeps f (@panic _ _ _ A).
Proof. by intros n. Qed.

Lemma keeps_modify (g : Node → Node) : (∀ n, f (g n) = f n) → keeps f (modify g).
Proof. intros Hg n. apply Hg. Qed.

Lemma keeps_bind {A B} (m : M A) (k : A → M B) :
  keeps f m → (∀ a, keeps f (k a)) → keeps f (m ≫= k).
Proof.
  intros Hm Hk n. rewrite bind_run. specialize (Hm n).
  destruct (out (m n)); cbn [post]; [|done..].
  by rewrite Hk.
Qed.

Lemma keeps_store_do ev op : keeps f (store_do ev op).
Proof. intros n. rewrite store_do_run. apply frame_store. Qed.

Lemma keeps_store_ask {A} ev (op : St → St * result A) : keeps f (store_ask ev op).
Proof. intros n. rewrite store_ask_run. apply frame_store. Qed.

Lemma keeps_net_ask {A} ev (op : Net → Net * result A) : keeps f (net_ask ev op).
Proof. intros n. rewrite net_ask_run. apply frame_transport. Qed.

Lemma keeps_close (oc : option Client) : keeps f (close oc).
Proof.
  destruct oc as [c|]; [|apply keeps_panic].
  intros n. cbn. destruct (cl_Close c (transport n)). apply frame_transport.
Qed.

Lemma keeps_call {A} (oc : option Client) r (op : Client → Net → Net * result A) :
  keeps f (call oc r op).
Proof. destruct oc; [apply keeps_net_ask | apply keeps_panic]. Qed.

Lemma keeps_for_each {A} (xs : list A) (body : A → M unit) :
  (∀ x, keeps f (body x)) → keeps f (for_each xs body).
Proof.
  intros Hbody. induction xs as [|x xs IH]; [apply keeps_ret|].
  apply keeps_bind; [apply Hbody | done].
Qed.

Lemma keeps_writePropagated reply : keeps f (writePropagated reply).
Proof.
  apply keeps_for_each. intros [key forKey].
  apply keeps_for_each. intros item. apply keeps_store_do.
Qed.

Lemma keeps_commitPropagated reply : keeps f (commitPropagated reply).
Proof.
  apply keeps_for_each. intros [key forKey].
  apply keeps_for_each. intros item. apply keeps_store_do.
Qed.

Lemma keeps_requestFwdPropagation oc : keeps f (requestFwdPropagation oc).
Proof.
  apply keeps_bind; [apply keeps_store_ask | intros dirty].
  apply keeps_bind; [apply keeps_call | apply keeps_writePropagated].
Qed.

Lemma keeps_requestBackPropagation oc : keeps f (requestBackPropagation oc).
Proof.
  apply keeps_bind; [apply keeps_store_ask | intros committed].
  apply keeps_bind; [apply keeps_call | apply keeps_commitPropagated].
Qed.

Lemma keeps_fullPropagate : keeps f fullPropagate.
Proof.
  apply keeps_bind; [apply keeps_get | intros n].
  apply keeps_bind; [apply keeps_requestFwdPropagation | intros _].
  apply keeps_requestBackPropagation.
Qed.

(** [connectToNode] touches the registry at its own position only. *)
Lemma keeps_connectToNode p pos :
  (∀ nbr n, f (set_neighbors <[pos := nbr]> n) = f n) →
  keeps f (connectToNode p pos).
Proof.
  intros Hpos.
  apply keeps_bind; [apply keeps_net_ask | intros conn].
  apply keeps_bind; [apply keeps_get | intros n].
  apply keeps_bind; [|intros _; apply keeps_modify, Hpos].
  destruct (client _); [apply keeps_close | apply keeps_ret].
Qed.

Lemma keeps_connectPrev (reply : NodeMeta) :
  (∀ nbr n, f (set_neighbors <[NeighborPosPrev := nbr]> n) = f n) →
  keeps f (connectPrev reply).
Proof.
  intros Hpos. unfold connectPrev. destruct (decide (Prev reply ≠ "")) as [Hprev|Hprev].
  - apply keeps_bind; [by apply keeps_connectToNode | intros _].
    apply keeps_fullPropagate.
  - apply keeps_bind; [apply keeps_get | intros n].
    destruct (decide _) as [Hpath|Hpath]; [apply keeps_close | apply keeps_ret].
Qed.

End Keeps.

(** ** Connecting to neighbors *)

(** [connectToNode] opens the new connection first; a connection already
    held at the position is closed next, and only then is the new record
    installed.  When the new connection cannot be opened the registry is
    left alone. *)
Lemma connectToNode_run p pos n :
  connectToNode p pos n =
  match tr_Connect p (transport n) with
  | (t1, Err e) => mkRun (Fails e) (set_transport t1 n) [EvConnect p]
  | (t1, Ok conn) =>
      let installed := set_neighbors <[pos := {| client := Some conn; path := p |}]> in
      match client (neighbor_at n pos) with
      | Some c =>
          mkRun (Returns ()) (installed (set_transport (cl_Close c t1).1 n))
                [EvConnect p; EvClose c]
      | None => mkRun (Returns ()) (installed (set_transport t1 n)) [EvConnect p]
      end
  end.
Proof.
  unfold connectToNode. rewrite bind_run, net_ask_run.
  destruct (tr_Connect p (transport n)) as [t1 [conn|e]]; cbn [out post events fst snd];
    [|done].
  rewrite bind_run. cbn [get out post events].
  change (neighbor_at (set_transport t1 n) pos) with (neighbor_at n pos).
  rewrite bind_run. destruct (client (neighbor_at n pos)) as [c|]; [|done].
  cbn [close]. cbn [transport set_transport].
  by destruct (cl_Close c t1).
Qed.

Lemma connectToNode_out p pos n :
  out (connectToNode p pos n) = Returns () ↔ connects p n = true.
Proof.
  rewrite connectToNode_run. unfold connects.
  destruct (tr_Connect p (transport n)) as [t1 [conn|e]]; [|done].
  cbv zeta. by destruct (client (neighbor_at n pos)).
Qed.

Lemma connectToNode_out_cases p pos n :
  (out (connectToNode p pos n) = Returns () ∧ connects p n = true) ∨
  (∃ e, out (connectToNode p pos n) = Fails e ∧ connects p n = false).
Proof.
  rewrite connectToNode_run. unfold connects.
  destruct (tr_Connect p (transport n)) as [t1 [conn|e]]; [|right; by exists e].
  cbv zeta. left. by destruct (client (neighbor_at n pos)).
Qed.

Lemma connectToNode_events p pos n ev :
  ev ∈ events (connectToNode p pos n) →
  ev = EvConnect p ∨ ∃ c, client (neighbor_at n pos) = Some c ∧ ev = EvClose c.
Proof.
  rewrite connectToNode_run.
  destruct (tr_Connect p (transport n)) as [t1 [conn|e]]; cbv zeta.
  - destruct (client (neighbor_at n pos)) as [c|]; cbn [events].
    + intros [->|[->|Hnil]%elem_of_cons]%elem_of_cons; [by left | right; by exists c |].
      by apply elem_of_nil in Hnil.
    + intros ->%list_elem_of_singleton. by left.
  - cbn [events]. intros ->%list_elem_of_singleton. by left.
Qed.

Lemma connectToNode_no_catchup p pos n :
  ¬ catchup_run (events (connectToNode p pos n)).
Proof.
  intros [Hev|(c & _ & Hev)]%connectToNode_events; discriminate Hev.
Qed.

Lemma fullPropagate_catchup n : catchup_run (events (fullPropagate n)).
Proof.
  unfold catchup_run, fullPropagate. rewrite bind_run. cbn [get out post events app].
  rewrite bind_run.
  destruct (requestFwdPropagation_events (client (neighbor_at n NeighborPosPrev)) n)
    as (rest & Hev & _).
  destruct (out (requestFwdPropagation _ n)); cbn [events]; rewrite Hev;
    rewrite ?elem_of_app, ?elem_of_cons; auto.
Qed.

(** The catch-up protocol is run exactly when a predecessor is reported
    and the connection to it is opened. *)
Lemma connectPrev_catchup (reply : NodeMeta) n :
  catchup_run (events (connectPrev reply n)) ↔
  Prev reply ≠ "" ∧ connects (Prev reply) n = true.
Proof.
  unfold connectPrev. destruct (decide (Prev reply ≠ "")) as [Hprev|Hprev].
  - rewrite bind_run.
    pose proof (connectToNode_no_catchup (Prev reply) NeighborPosPrev n) as Hno.
    destruct (connectToNode_out_cases (Prev reply) NeighborPosPrev n)
      as [[-> Hc]|(e & -> & Hc)]; cbn [out post events]; rewrite Hc.
    + split; [done|]. intros _. apply elem_of_app. right. apply fullPropagate_catchup.
    + split; [done | by intros [_ ?]].
  - split; [|by intros [? _]]. rewrite bind_run. cbn [get out post events app].
    unfold catchup_run.
    destruct (decide _) as [Hpath|Hpath]; [|cbn; by rewrite elem_of_nil].
    destruct (client _) as [c|]; cbn.
    + destruct (cl_Close c (transport n)). cbn.
      by intros ?%list_elem_of_singleton.
    + by rewrite elem_of_nil.
Qed.

Lemma ConnectToCoordinator_run n cdrc t1 (reply : NodeMeta) t2 :
  tr_Connect (CdrPath n) (transport n) = (t1, Ok cdrc) →
  cl_AddNode cdrc (Path n) t1 = (t2, Ok reply) →
  ConnectToCoordinator n =
  let r := (connectTail reply ;; connectPrev reply)
             (install_reply reply (set_transport t2 (set_cdr (Some cdrc) n))) in
  mkRun (out r) (post r)
        (EvConnect (CdrPath n) :: EvCall cdrc (RPC_AddNode (Path n)) :: events r).
Proof.
  intros Hconnect Hadd. unfold ConnectToCoordinator.
  rewrite bind_run. cbn [get out post events app].
  rewrite bind_run, net_ask_run, Hconnect. cbn [out post events fst snd].
  rewrite bind_run. cbn [modify out post events app].
  rewrite bind_run. unfold call. rewrite net_ask_run. cbn [transport set_cdr set_transport].
  rewrite Hadd. cbn [out post events fst snd].
  do 3 (rewrite bind_run; cbn [modify out post events app]).
  reflexivity.
Qed.

Lemma connectTail_out (reply : NodeMeta) n :
  out (connectTail reply n) = Returns () ↔
  IsTail reply = true ∨ connects (Tail reply) n = true.
Proof.
  unfold connectTail. destruct (IsTail reply); cbn [negb].
  - split; [by left | done].
  - rewrite connectToNode_out. split; [by right | by intros [?|?]].
Qed.

Lemma connectTail_no_catchup (reply : NodeMeta) n :
  ¬ catchup_run (events (connectTail reply n)).
Proof.
  unfold connectTail. destruct (negb _); [apply connectToNode_no_catchup|].
  cbn. apply not_elem_of_nil.
Qed.

Lemma fullPropagate_events n :
  Forall (λ ev, is_fwd ev ∨ is_back ev) (events (fullPropagate n)).
Proof.
  unfold fullPropagate. rewrite bind_run. cbn [get out post events app].
  rewrite bind_run.
  set (oc := client (neighbor_at n NeighborPosPrev)).
  destruct (requestFwdPropagation_events oc n) as (rest & Hev & Hrest).
  assert (Forall (λ ev, is_fwd ev ∨ is_back ev) (events (requestFwdPropagation oc n)))
    as Hfwd.
  { rewrite Hev. constructor; [by left|]. eapply Forall_impl; [done|]. by left. }
  destruct (out (requestFwdPropagation oc n)); cbn [events]; [|done..].
  apply Forall_app. split; [done|].
  eapply Forall_impl; [apply requestBackPropagation_events|]. by right.
Qed.

(** The only connection [connectPrev] opens is to the reported predecessor. *)
Lemma connectPrev_connects (reply : NodeMeta) n p :
  EvConnect p ∈ events (connectPrev reply n) → p = Prev reply ∧ Prev reply ≠ "".
Proof.
  unfold connectPrev. destruct (decide (Prev reply ≠ "")) as [Hprev|Hprev].
  - rewrite bind_run.
    assert (EvConnect p ∈ events (connectToNode (Prev reply) NeighborPosPrev n) →
            p = Prev reply) as Hconn.
    { intros [Hev|(c & _ & Hev)]%connectToNode_events; by inversion Hev. }
    destruct (out (connectToNode _ _ n)); cbn [events]; [|by auto..].
    intros [Hin|Hin]%elem_of_app; [by auto|].
    pose proof (fullPropagate_events (post (connectToNode (Prev reply) NeighborPosPrev n)))
      as Hall.
    rewrite Forall_forall in Hall. by destruct (Hall _ Hin).
  - rewrite bind_run. cbn [get out post events app].
    destruct (decide _) as [Hpath|Hpath]; [|cbn; by rewrite elem_of_nil].
    destruct (client _) as [c|]; cbn.
    + destruct (cl_Close c (transport n)). cbn.
      by intros ?%list_elem_of_singleton.
    + by rewrite elem_of_nil.
Qed.

(** C2, as the code has it.  Once the coordinator has answered, the
    catch-up protocol is run if and only if the reply reports a
    predecessor (a non-empty path), the connection to the tail succeeded
    (or was not needed, the node being the tail) and the connection to the
    reported predecessor succeeded.  The predecessor the node was connected
    to before plays no part: the condition does not read it. *)
Theorem catchup_iff_predecessor_reported n cdrc t1 (reply : NodeMeta) t2 :
  tr_Connect (CdrPath n) (transport n) = (t1, Ok cdrc) →
  cl_AddNode cdrc (Path n) t1 = (t2, Ok reply) →
  let n1 := install_reply reply (set_transport t2 (set_cdr (Some cdrc) n)) in
  catchup_run (events (ConnectToCoordinator n)) ↔
    Prev reply ≠ "" ∧
    (IsTail reply = true ∨ connects (Tail reply) n1 = true) ∧
    connects (Prev reply) (post (connectTail reply n1)) = true.
Proof.
  intros Hconnect Hadd n1.
  rewrite (ConnectToCoordinator_run n cdrc t1 reply t2 Hconnect Hadd).
  cbv zeta. fold n1. cbn [events]. unfold catchup_run at 1.
  rewrite !elem_of_cons, bind_run, <-connectTail_out.
  pose proof (connectTail_no_catchup reply n1) as Hno.
  destruct (out (connectTail reply n1)) as [[]|e|]; cbn [events].
  - rewrite elem_of_app. fold (catchup_run (events (connectTail reply n1))).
    fold (catchup_run (events (connectPrev reply (post (connectTail reply n1))))).
    rewrite connectPrev_catchup. split.
    + intros [?|[?|[?|?]]]; try done. tauto.
    + intros (? & _ & ?). do 2 right. by right.
  - split; [intros [?|[?|?]]; done | by intros (_ & ? & _)].
  - split; [intros [?|[?|?]]; done | by intros (_ & ? & _)].
Qed.

(** C10. When the coordinator's reply marks the node as tail, the tail
    record left by [ConnectToCoordinator] holds the tail path and no
    connection handle, the node's tail bit is set, and the only connections
    the run opens are the one to the coordinator and the one to the
    reported predecessor: none is opened for the tail position.  So the
    tail position holds a handle only when the node is not the tail. *)
Theorem tail_record_without_client n cdrc t1 (reply : NodeMeta) t2 :
  tr_Connect (CdrPath n) (transport n) = (t1, Ok cdrc) →
  cl_AddNode cdrc (Path n) t1 = (t2, Ok reply) →
  IsTail reply = true →
  let r := ConnectToCoordinator n in
  neighbors (post r) !! NeighborPosTail =
    Some {| client := None; path := Tail reply |} ∧
  client (neighbor_at (post r) NeighborPosTail) = None ∧
  isTail (post r) = true ∧
  (∀ p, EvConnect p ∈ events r →
        p = CdrPath n ∨ (p = Prev reply ∧ Prev reply ≠ "")).
Proof.
  intros Hconnect Hadd Htail. cbv zeta.
  rewrite (ConnectToCoordinator_run n cdrc t1 reply t2 Hconnect Hadd).
  cbv zeta. cbn [out post events].
  set (n1 := install_reply reply (set_transport t2 (set_cdr (Some cdrc) n))).
  assert ((connectTail reply ;; connectPrev reply) n1 = connectPrev reply n1) as ->.
  { unfold connectTail. rewrite Htail. cbn [negb].
    apply (ret_bind () (λ _, connectPrev reply)). }
  assert (neighbors (post (connectPrev reply n1)) !! NeighborPosTail =
          Some {| client := None; path := Tail reply |}) as Hrecord.
  { pose proof (keeps_connectPrev (λ n', neighbors n' !! NeighborPosTail) reply)
      as Hkeeps.
    unfold keeps in Hkeeps. cbn beta in Hkeeps. rewrite Hkeeps.
    - apply lookup_insert_eq.
    - intros nbr n'. by apply lookup_insert_ne. }
  repeat split.
  - done.
  - unfold neighbor_at. by rewrite Hrecord.
  - by rewrite (keeps_connectPrev isTail reply (λ _ _, eq_refl) n1).
  - intros p [Hp|[Hp|Hp]%elem_of_cons]%elem_of_cons.
    + left. by inversion Hp.
    + discriminate Hp.
    + right. by eapply connectPrev_connects.
Qed.

(** Outside the section above the frame of a concrete component is found
    by instance search. *)
Tactic Notation "keeps_by" uconstr(lem) := apply lem; try exact _; try done.
Ltac keeps_seq tac := apply keeps_bind; [exact _ | tac | ].

Lemma ConnectToCoordinator_keeps_latest : keeps latest ConnectToCoordinator.
Proof.
  unfold ConnectToCoordinator.
  keeps_seq ltac:(keeps_by keeps_get); intros n.
  keeps_seq ltac:(keeps_by keeps_net_ask); intros cdrClient.
  keeps_seq ltac:(keeps_by keeps_modify); intros _.
  keeps_seq ltac:(keeps_by keeps_call); intros reply.
  do 3 (keeps_seq ltac:(keeps_by keeps_modify); intros _).
  keeps_seq idtac; [|intros _].
  - destruct (negb _); [keeps_by keeps_connectToNode | keeps_by keeps_ret].
  - keeps_by (keeps_connectPrev latest).
Qed.

(** C3, as the code has it.  [New] creates the [latest] map empty and the
    coordinator connection, catch-up included, never writes to it: a node
    that has just started holds an empty [latest] map, whatever its store
    enumerates. *)
Theorem latest_left_empty (opts : Opts) n (srv : ServerRun) :
  latest (New opts : @Node St Net Client) = ∅ ∧
  latest (post (ConnectToCoordinator n)) = latest n ∧
  latest (post (ConnectToCoordinator (New opts))) = ∅ ∧
  latest (ListenAndServe srv (New opts)).1.2 = ∅.
Proof.
  pose proof ConnectToCoordinator_keeps_latest as Hkeeps.
  repeat split; [apply Hkeeps | apply Hkeeps |].
  unfold ListenAndServe, coordinatorTask. cbn [fst snd].
  destruct (out (ConnectToCoordinator (New opts))); apply Hkeeps.
Qed.

(** C8, as the code has it.  When [ConnectToCoordinator] returns an error
    inside [ListenAndServe], the node shuts its server down, as the last
    call it makes, and [ListenAndServe] returns a non-nil error: the
    coordinator error when the error group sees the coordinator task return
    first, the error of the server task otherwise. *)
Theorem ListenAndServe_coordinator_failure (srv : ServerRun) n e :
  out (ConnectToCoordinator n) = Fails e →
  ListenAndServe srv n =
  (Exits (Some (if serve_first srv
                then default ErrServerClosed (serve_error srv)
                else e)),
   post (ConnectToCoordinator n),
   events (ConnectToCoordinator n) ++ [EvShutdown]).
Proof.
  intros Hfail. unfold ListenAndServe, coordinatorTask. by rewrite Hfail.
Qed.

End NodeProps.

(** * The properties on concrete runs *)

Module Runs.

Import Scenario.

(** Membership in a trace that computes. *)
Ltac in_trace :=
  apply list_elem_of_In; vm_compute; repeat first [left; reflexivity | right].

(** C4 on the middle node: its one dirty item makes the forward request,
    and nothing is committed yet. *)
Lemma propagateRequest_exact_witness :
  store_AllDirty (store middle) = ([item "x" 1 false], Ok [item "x" 1 false]) ∧
  store_AllCommitted (store middle) = ([item "x" 1 false], Ok []) ∧
  propagateRequestFromItems [item "x" 1 false; item "y" 4 true; item "x" 2 false]
    !! "x" = Some [1%N; 2%N] ∧
  (∃ rest, events (requestFwdPropagation (range_impl := range_listed) (Some 2) middle) =
           EvAllDirty
             :: EvCall 2 (RPC_FwdPropagate (propagateRequestFromItems [item "x" 1 false]))
             :: rest ∧ Forall is_fwd rest).
Proof.
  assert (store_AllDirty (store middle)
          = ([item "x" 1 false], Ok [item "x" 1 false])) as Hdirty
    by (vm_compute; reflexivity).
  assert (store_AllCommitted (store middle) = ([item "x" 1 false], Ok [])) as Hcommitted
    by (vm_compute; reflexivity).
  split; [exact Hdirty|]. split; [exact Hcommitted|].
  pose proof (propagateRequest_exact (range_impl := range_listed)
                [item "x" 1 false; item "y" 4 true; item "x" 2 false] "x"
                middle 2 _ _ _ _ Hdirty Hcommitted) as (Hreq & Hfwd & _).
  split; [exact Hreq | exact Hfwd].
Defined.

(** C5 on the middle node: the three items of the forward reply are
    written next to the item the node held. *)
Lemma requestFwdPropagation_writes_all_witness :
  let r := requestFwdPropagation (range_impl := range_listed) (Some 2) middle in
  out r = Returns () ∧
  store (post r) = [item "x" 1 false; item "y" 1 false; item "x" 2 false; item "x" 3 false] ∧
  EvWrite "x" [x61] 3 ∈ events r.
Proof.
  pose proof (requestFwdPropagation_writes_all (range_impl := range_listed)
                middle 2 [item "x" 1 false] [item "x" 1 false]
                (transport middle) fwd_reply
                [item "x" 1 false; item "y" 1 false; item "x" 2 false; item "x" 3 false])
    as Hall.
  destruct Hall as (Hout & Hstore & Hwritten & _); [vm_compute; reflexivity..|].
  split; [exact Hout|]. split; [exact Hstore|].
  apply (Hwritten "x" [sent 2 false; sent 3 false] (sent 3 false)).
  - vm_compute; reflexivity.
  - apply list_elem_of_In. right. left. reflexivity.
Defined.

(** C6 on the middle node once the forward reply is written: both
    versions of the back reply are committed. *)
Lemma requestBackPropagation_commits_all_witness :
  let n := post (requestFwdPropagation (range_impl := range_listed) (Some 2) middle) in
  let r := requestBackPropagation (range_impl := range_listed) (Some 2) n in
  out r = Returns () ∧
  store (post r) = [item "x" 1 true; item "y" 1 false; item "x" 2 true; item "x" 3 false] ∧
  EvCommit "x" 2 ∈ events r.
Proof.
  set (n := post (requestFwdPropagation (range_impl := range_listed) (Some 2) middle)).
  pose proof (requestBackPropagation_commits_all (range_impl := range_listed)
                n 2 (store n) [] (transport n) back_reply
                [item "x" 1 true; item "y" 1 false; item "x" 2 true; item "x" 3 false])
    as Hall.
  destruct Hall as (Hout & Hstore & Hcommitted & _); [vm_compute; reflexivity..|].
  split; [exact Hout|]. split; [exact Hstore|].
  apply (Hcommitted "x" [sent 1 true; sent 2 true] (sent 2 true)).
  - vm_compute; reflexivity.
  - apply list_elem_of_In. right. left. reflexivity.
Defined.

(** C9 on the middle node: the reply brings version 2, then version 1,
    which the node holds already, then version 3.  Version 2 stays
    written, the write of version 1 fails and version 3 is never tried. *)
Lemma applyPropagated_not_atomic_witness :
  let r := applyPropagated (range_impl := range_listed) Forward clash_reply middle in
  out r = Fails "that version already exists" ∧
  store (post r) = [item "x" 1 false; item "x" 2 false] ∧
  events r = [EvWrite "x" [x61] 2; EvWrite "x" [x61] 1].
Proof.
  pose proof (applyPropagated_not_atomic (range_impl := range_listed)
                Forward clash_reply middle
                [("x", sent 2 false)] ("x", sent 1 false) [("x", sent 3 false)]
                [item "x" 1 false; item "x" 2 false]
                [item "x" 1 false; item "x" 2 false]
                "that version already exists")
    as Hfail.
  destruct Hfail as (Hout & Hpost & Hev); [vm_compute; reflexivity..|].
  split; [exact Hout|]. split; [by rewrite Hpost | exact Hev].
Defined.

(** C2 on the middle node as it starts: a predecessor is reported and all
    connections succeed, so the catch-up protocol runs. *)
Lemma catchup_iff_predecessor_reported_witness :
  tr_Connect (CdrPath middle) (transport middle)
    = ((ScriptNet.Connect "cdr:1" (transport middle)).1, Ok 0) ∧
  cl_AddNode 0 (Path middle) (ScriptNet.Connect "cdr:1" (transport middle)).1
    = ((ScriptNet.Connect "cdr:1" (transport middle)).1, Ok meta_middle) ∧
  catchup_run (events (connect middle)).
Proof.
  set (t1 := (ScriptNet.Connect "cdr:1" (transport middle)).1).
  assert (tr_Connect (CdrPath middle) (transport middle) = (t1, Ok 0)) as Hconnect
    by (vm_compute; reflexivity).
  assert (cl_AddNode 0 (Path middle) t1 = (t1, Ok meta_middle)) as Hadd
    by (vm_compute; reflexivity).
  split; [exact Hconnect|]. split; [exact Hadd|].
  apply (catchup_iff_predecessor_reported (range_impl := range_listed)
           middle 0 t1 meta_middle t1 Hconnect Hadd).
  split; [done|]. split; [right|]; vm_compute; reflexivity.
Defined.

(** C2 as it is stated fails on a node that connects to the coordinator a
    second time and is told the predecessor it is connected to already:
    the predecessor has not changed, and the catch-up protocol runs. *)
Lemma catchup_when_predecessor_unchanged :
  ¬ (catchup_run (events (connect quiet_joined)) ↔
     Prev meta_middle ≠ path (neighbor_at quiet_joined NeighborPosPrev) ∧
     Prev meta_middle ≠ "").
Proof.
  intros [Hrun _].
  assert (catchup_run (events (connect quiet_joined))) as Hcatchup by in_trace.
  destruct (Hrun Hcatchup) as [Hchanged _].
  apply Hchanged. vm_compute. reflexivity.
Qed.

(** C3 as it is stated fails on the middle node after it has started and
    caught up: the store enumerates versions of "x", and [latest] has no
    entry for it. *)
Lemma latest_not_rebuilt_from_store :
  ¬ latest_matches_store (post (connect middle)).
Proof.
  intros (dirty & committed & Hdirty & Hcommitted & Hlatest).
  vm_compute in Hdirty. vm_compute in Hcommitted.
  injection Hdirty as <-. injection Hcommitted as <-.
  specialize (Hlatest "x"). vm_compute in Hlatest. discriminate Hlatest.
Qed.

(** C10 on the node that is told it is the tail. *)
Lemma tail_record_without_client_witness :
  IsTail meta_tail = true ∧
  neighbors (post (connect tail)) !! NeighborPosTail =
    Some {| client := None; path := "self:1" |} ∧
  isTail (post (connect tail)) = true.
Proof.
  set (t1 := (ScriptNet.Connect "cdr:1" (transport tail)).1).
  assert (tr_Connect (CdrPath tail) (transport tail) = (t1, Ok 0)) as Hconnect
    by (vm_compute; reflexivity).
  assert (cl_AddNode 0 (Path tail) t1 = (t1, Ok meta_tail)) as Hadd
    by (vm_compute; reflexivity).
  destruct (tail_record_without_client (range_impl := range_listed)
              tail 0 t1 meta_tail t1 Hconnect Hadd eq_refl)
    as (Hrecord & _ & Hbit & _).
  split; [reflexivity|]. split; [exact Hrecord | exact Hbit].
Defined.

(** C8 on the node whose coordinator cannot be reached, when the error
    group sees the coordinator task return first. *)
Lemma ListenAndServe_coordinator_failure_witness :
  out (connect stranded) = Fails "connection refused" ∧
  ListenAndServe (range_impl := range_listed) (mkServerRun None false) stranded =
  (Exits (Some "connection refused"), post (connect stranded),
   [EvConnect "cdr:1"; EvShutdown]).
Proof.
  assert (out (connect stranded) = Fails "connection refused") as Hfail
    by (vm_compute; reflexivity).
  split; [exact Hfail|].
  exact (ListenAndServe_coordinator_failure (range_impl := range_listed)
           (mkServerRun None false) stranded "connection refused" Hfail).
Defined.

(** C8 as it is stated fails when the server task returns first: the
    coordinator cannot be reached, the server is shut down, and
    [ListenAndServe] returns the server's error, not the coordinator's. *)
Lemma ListenAndServe_returns_server_error :
  ¬ (∀ srv e,
       out (connect stranded) = Fails e →
       (ListenAndServe (range_impl := range_listed) srv stranded).1.1 = Exits (Some e)).
Proof.
  intros Hclaim.
  specialize (Hclaim (mkServerRun None true) "connection refused").
  assert (out (connect stranded) = Fails "connection refused") as Hfail
    by (vm_compute; reflexivity).
  specialize (Hclaim Hfail). vm_compute in Hclaim. discriminate Hclaim.
Qed.

(** C7 fails on the head once the coordinator names another tail.  The
    head holds connection 1 to the old tail.  Line 134 replaces the tail
    record by one without a handle before [connectToNode] looks for a
    connection to close, so the run installs connection 3 and never closes
    connection 1, which stays open on the transport. *)
Theorem tail_connection_never_closed :
  neighbor_at head_joined NeighborPosTail = {| client := Some 1; path := "tail:1" |} ∧
  out (connect head_retold) = Returns () ∧
  events (connect head_retold) =
    [EvConnect "cdr:1"; EvCall 2 (RPC_AddNode "self:1"); EvConnect "tail:2"] ∧
  neighbor_at (post (connect head_retold)) NeighborPosTail =
    {| client := Some 3; path := "tail:2" |} ∧
  ScriptNet.opened (transport (post (connect head_retold))) = [0; 1; 2; 3].
Proof. repeat split; vm_compute; reflexivity. Qed.

(** The same replacement through [connectToNode] alone does close the old
    connection first. *)
Example connectToNode_closes_previous :
  events (connectToNode "tail:2" NeighborPosTail head_joined) =
    [EvConnect "tail:2"; EvClose 1] ∧
  ScriptNet.opened (transport (post (connectToNode "tail:2" NeighborPosTail head_joined)))
    = [0; 2].
Proof. split; vm_compute; reflexivity. Qed.

(** C1 on the middle node: the writes of forward propagation precede the
    enumeration of committed items. *)
Example fullPropagate_trace_shape :
  let joined := post (connectToNode "prev:1" NeighborPosPrev middle) in
  is_fwd <$> events (fullPropagate (range_impl := range_listed) joined) =
    [true; true; true; true; true; false; false; false; false] ∧
  is_back <$> events (fullPropagate (range_impl := range_listed) joined) =
    [false; false; false; false; false; true; true; true; true].
Proof. split; vm_compute; reflexivity. Qed.

End Runs.

(** * Further properties of node.go *)

(** ** The propagate request *)

Lemma versionsOf_app key (xs ys : list Item) :
  versionsOf key (xs ++ ys) = versionsOf key xs ++ versionsOf key ys.
Proof. unfold versionsOf. by rewrite filter_app, fmap_app. Qed.

Lemma versionsOf_nil key (items : list Item) :
  versionsOf key items = [] ↔ key ∉ Key <$> items.
Proof.
  unfold versionsOf. induction items as [|it items IH].
  { split; [intros _; apply not_elem_of_nil | done]. }
  rewrite filter_cons, fmap_cons, not_elem_of_cons.
  destruct (decide (Key it = key)) as [->|Hne].
  - split; [done | by intros [? _]].
  - rewrite IH. split; [intros ?; by split | by intros [_ ?]].
Qed.

Lemma propagateRequest_lookup (items : list Item) key :
  propagateRequestFromItems items !! key =
  match versionsOf key items with
  | [] => None
  | vs => Some vs
  end.
Proof.
  unfold propagateRequestFromItems. rewrite propagateRequest_foldl.
  by destruct (versionsOf key items).
Qed.

(** X1. The keys of the request are exactly the keys that occur among the
    items: no key is invented and none is dropped (an empty list of items
    gives the empty request). *)
Theorem propagateRequest_dom (items : list Item) :
  dom (propagateRequestFromItems items) = list_to_set (Key <$> items).
Proof.
  apply set_eq. intros key.
  rewrite elem_of_dom, elem_of_list_to_set, propagateRequest_lookup.
  pose proof (versionsOf_nil key items) as Hnil.
  destruct (versionsOf key items) as [|v vs].
  - split; [by intros [? ?] | intros Hin]. by destruct (proj1 Hnil eq_refl).
  - split; [intros _ | by eauto].
    destruct (decide (key ∈ Key <$> items)) as [|Hout]; [done|].
    by apply Hnil in Hout.
Qed.

(** X2. Building the request from a concatenation is building it from each
    part and appending, key by key, the versions of the second part after
    those of the first. *)
Theorem propagateRequest_app (xs ys : list Item) :
  propagateRequestFromItems (xs ++ ys) =
  union_with (λ vs ws, Some (vs ++ ws))
             (propagateRequestFromItems xs) (propagateRequestFromItems ys).
Proof.
  apply map_eq. intros key.
  rewrite lookup_union_with, !propagateRequest_lookup, versionsOf_app.
  destruct (versionsOf key xs), (versionsOf key ys); cbn; by rewrite ?app_nil_r.
Qed.

Lemma request_size_insert (req : PropagateRequest) key versions :
  request_size (<[key := versions]> req) =
  length versions + request_size (delete key req).
Proof.
  unfold request_size. rewrite <-insert_delete_eq.
  rewrite map_fold_insert_L; [done | intros; lia | apply lookup_delete_eq].
Qed.

Lemma request_size_lookup (req : PropagateRequest) key :
  request_size req =
  length (default [] (req !! key)) + request_size (delete key req).
Proof.
  destruct (req !! key) as [versions|] eqn:Hkey; cbn.
  - rewrite <-request_size_insert. by rewrite insert_id.
  - by rewrite delete_id.
Qed.

(** X3. The request lists as many versions as there are items: every item
    contributes one version, also when two items carry the same key and
    version. *)
Theorem propagateRequest_size (items : list Item) :
  request_size (propagateRequestFromItems items) = length items.
Proof.
  unfold propagateRequestFromItems.
  induction items as [|it items IH] using rev_ind; [done|].
  rewrite foldl_snoc, request_size_insert, length_app, length_app. cbn.
  rewrite (request_size_lookup _ (Key it)) in IH. lia.
Qed.

(** X4. The request depends only on the versions listed under each key, in
    their order: two lists of items that agree key by key build the same
    request, however the items of different keys are interleaved. *)
Theorem propagateRequest_interleaving (xs ys : list Item) :
  (∀ key, versionsOf key xs = versionsOf key ys) →
  propagateRequestFromItems xs = propagateRequestFromItems ys.
Proof.
  intros Hsame. apply map_eq. intros key.
  by rewrite !propagateRequest_lookup, Hsame.
Qed.

(** ** Applying a response, continued *)

Section ResponseProps.

Context {St Net Client : Type}.
Context {store_impl : storer St} {transport_impl : Transporter Net Client}.
Context {range_impl : RangeOrder}.

Implicit Types (n : @Node St Net Client) (reply : PropagateResponse).

Lemma range_elem reply key forKey :
  (key, forKey) ∈ range reply ↔ reply !! key = Some forKey.
Proof. by rewrite range_perm, elem_of_map_to_list. Qed.

Lemma range_NoDup reply : NoDup (range reply).*1.
Proof. rewrite range_perm. apply NoDup_fst_map_to_list. Qed.

Lemma applyPropagated_ok_events d reply n :
  out (applyPropagated d reply n) = Returns () →
  events (applyPropagated d reply n) = store_event d <$> entries reply.
Proof.
  rewrite applyPropagated_loop. intros Hout.
  pose proof (for_each_store_do (store_event d) (store_call d) (entries reply) n) as Hrun.
  cbv zeta in Hrun. rewrite Hout in Hrun. by destruct Hrun as (s & _ & _ & ->).
Qed.

(** X5. A response that carries no item (the empty map, or keys that all
    map to empty lists) is applied without a single store call: the function
    returns nil and leaves the node as it was. *)
Theorem applyPropagated_nothing d reply n :
  (∀ key forKey, reply !! key = Some forKey → forKey = []) →
  applyPropagated d reply n = mkRun (Returns ()) n [].
Proof.
  intros Hempty. rewrite applyPropagated_loop.
  assert (entries reply = []) as ->; [|done].
  apply elem_of_nil_inv. intros e [[key forKey] [He Hin]]%list_elem_of_bind.
  apply range_elem, Hempty in Hin as ->. by apply elem_of_nil in He.
Qed.

Lemma filter_key_pairs key k (l : list PropagatedItem) :
  filter (λ e : string * PropagatedItem, e.1 = key) (pair k <$> l) =
  if decide (k = key) then pair k <$> l else [].
Proof.
  induction l as [|x l IH]; [by destruct (decide _)|].
  rewrite fmap_cons, filter_cons, IH. cbn [fst].
  by destruct (decide (k = key)).
Qed.

Lemma filter_key_miss key (L : list (string * list PropagatedItem)) :
  key ∉ L.*1 →
  filter (λ e : string * PropagatedItem, e.1 = key)
         (L ≫= λ '(k, l), pair k <$> l) = [].
Proof.
  induction L as [|[k l] L IH]; [done|].
  rewrite fmap_cons, not_elem_of_cons. cbn [fst]. intros [Hne Hout].
  rewrite bind_cons, filter_app, filter_key_pairs, IH by done.
  by destruct (decide (k = key)).
Qed.

Lemma filter_key_hit key forKey (L : list (string * list PropagatedItem)) :
  NoDup L.*1 → (key, forKey) ∈ L →
  filter (λ e : string * PropagatedItem, e.1 = key)
         (L ≫= λ '(k, l), pair k <$> l) = pair key <$> forKey.
Proof.
  induction L as [|[k l] L IH]; [by intros _ ?%elem_of_nil|].
  rewrite fmap_cons, NoDup_cons. cbn [fst]. intros [Hout Hnodup] Hin.
  rewrite bind_cons, filter_app, filter_key_pairs.
  apply elem_of_cons in Hin as [[= <- <-]|Hin].
  - rewrite filter_key_miss by done. rewrite decide_True by done. apply app_nil_r.
  - rewrite decide_False; [by apply IH|].
    intros ->. apply Hout. by apply (list_elem_of_fmap_2 fst _ (key, forKey)).
Qed.

Lemma entries_of_key reply key :
  filter (λ e : string * PropagatedItem, e.1 = key) (entries reply) =
  pair key <$> default [] (reply !! key).
Proof.
  unfold entries. destruct (reply !! key) as [forKey|] eqn:Hkey; cbn [default].
  - apply filter_key_hit; [apply range_NoDup | by apply range_elem].
  - apply filter_key_miss. intros [[k l] [-> Hin]]%list_elem_of_fmap.
    apply range_elem in Hin. cbn in Hkey. congruence.
Qed.

Lemma filter_store_events d key (es : list (string * PropagatedItem)) :
  filter (λ ev : @Event Client, event_key ev = Some key) (store_event d <$> es) =
  store_event d <$> filter (λ e : string * PropagatedItem, e.1 = key) es.
Proof.
  induction es as [|[k x] es IH]; [done|].
  rewrite fmap_cons, !filter_cons, IH. cbn [fst].
  destruct d; cbn; destruct (decide (k = key)) as [->|Hne];
    (rewrite decide_True by done) || (rewrite decide_False by congruence); done.
Qed.

(** X6. Whatever the order in which [range] visits the keys of a response,
    the items of one key are applied in the order of that key's list: in a
    run that returns nil, the store calls made for [key] are those of the
    items of [reply[key]], one each, in list order (none when the response
    has no such key). *)
Theorem applyPropagated_key_order d reply n key :
  out (applyPropagated d reply n) = Returns () →
  filter (λ ev, event_key ev = Some key) (events (applyPropagated d reply n)) =
  store_event d <$> (pair key <$> default [] (reply !! key)).
Proof.
  intros Hout. rewrite (applyPropagated_ok_events d reply n Hout).
  by rewrite filter_store_events, entries_of_key.
Qed.

End ResponseProps.

Section OrderIrrelevant.

Context {St Net Client : Type}.
Context {store_impl : storer St} {transport_impl : Transporter Net Client}.

(** X7. The order in which [range] visits the keys changes the order of
    the store calls and nothing else: two runs that apply the same response
    under two visiting orders and both return nil have made the same store
    calls, each as many times. *)
Theorem applyPropagated_order_irrelevant (first second : RangeOrder) d
    (reply : PropagateResponse) (n1 n2 : @Node St Net Client) :
  out (applyPropagated (range_impl := first) d reply n1) = Returns () →
  out (applyPropagated (range_impl := second) d reply n2) = Returns () →
  events (applyPropagated (range_impl := first) d reply n1) ≡ₚ
  events (applyPropagated (range_impl := second) d reply n2).
Proof.
  intros Hfirst Hsecond.
  rewrite (applyPropagated_ok_events d reply n1 Hfirst).
  rewrite (applyPropagated_ok_events d reply n2 Hsecond).
  apply fmap_Permutation. unfold entries.
  apply bind_Permutation.
  by rewrite (range_perm (RangeOrder := first)), (range_perm (RangeOrder := second)).
Qed.

End OrderIrrelevant.

Section NodeMore.

Context {St Net Client : Type}.
Context {store_impl : storer St} {transport_impl : Transporter Net Client}.
Context {range_impl : RangeOrder}.

Implicit Types (n : @Node St Net Client) (c : Client).

(** ** connectToNode *)

(** X8. When the new connection cannot be opened, [connectToNode] returns
    that error after this one call: the registry is left as it was and the
    connection held at the position is not closed. *)
Theorem connectToNode_unreachable p pos n t1 e :
  tr_Connect p (transport n) = (t1, Err e) →
  connectToNode p pos n = mkRun (Fails e) (set_transport t1 n) [EvConnect p].
Proof. intros Hconnect. by rewrite connectToNode_run, Hconnect. Qed.

(** X9. When the new connection is opened, [connectToNode] returns nil,
    closes the connection held at the position, if there is one, and at no
    other position, and installs the new handle with its path at that
    position; all other positions of the registry keep their records. *)
Theorem connectToNode_replaces p pos n t1 conn :
  tr_Connect p (transport n) = (t1, Ok conn) →
  let r := connectToNode p pos n in
  out r = Returns () ∧
  neighbors (post r) = <[pos := {| client := Some conn; path := p |}]> (neighbors n) ∧
  events r = EvConnect p :: match client (neighbor_at n pos) with
                            | Some c => [EvClose c]
                            | None => []
                            end.
Proof.
  intros Hconnect. cbv zeta. rewrite connectToNode_run, Hconnect. cbv zeta.
  by destruct (client (neighbor_at n pos)).
Qed.


(** ** The round-trips by direction *)

Lemma requestPropagation_run d (oc : option Client) n :
  requestPropagation d oc n =
  (items ← store_ask (all_event d) (store_All d);
   reply ← call oc (propagate_rpc d (propagateRequestFromItems items))
                (λ c, cl_Propagate d c (propagateRequestFromItems items));
   applyPropagated d reply) n.
Proof. by destruct d. Qed.

(** X11. When the store cannot enumerate its items ([AllDirty] for forward,
    [AllCommitted] for back propagation), the round-trip returns that error
    at once: nothing is sent to the predecessor, also when no predecessor
    connection is held, and the store is not written. *)
Theorem requestPropagation_enumeration_fails d (oc : option Client) n s1 e :
  store_All d (store n) = (s1, Err e) →
  requestPropagation d oc n = mkRun (Fails e) (set_store s1 n) [all_event d].
Proof.
  intros Hall. by rewrite requestPropagation_run, bind_run, store_ask_run, Hall.
Qed.

(** X12. When the call to the predecessor fails, the round-trip returns
    that error: the request built from the enumeration was sent, and no
    item is written or committed. *)
Theorem requestPropagation_call_fails d c n s1 items t1 e :
  store_All d (store n) = (s1, Ok items) →
  cl_Propagate d c (propagateRequestFromItems items) (transport n) = (t1, Err e) →
  requestPropagation d (Some c) n =
  mkRun (Fails e) (set_transport t1 (set_store s1 n))
        [all_event d; EvCall c (propagate_rpc d (propagateRequestFromItems items))].
Proof.
  intros Hall Hcall. rewrite requestPropagation_run, bind_run, store_ask_run, Hall.
  cbn [out post events fst snd]. rewrite bind_run. unfold call.
  rewrite net_ask_run. cbn [transport set_store]. by rewrite Hcall.
Qed.

(** ** fullPropagate *)


(** X14. A catch-up in which nothing fails: the committed items are
    enumerated from the store as the forward writes left it, both requests
    go to the one predecessor connection, and the node ends with the store
    the commits left.  The calls are, in order: the dirty enumeration, the
    forward request, one write per forward item, the committed enumeration,
    the back request, one commit per back item. *)
Theorem fullPropagate_catches_up n c s1 dirty t1 fwd s2 s3 committed t2 back s4 :
  client (neighbor_at n NeighborPosPrev) = Some c →
  store_AllDirty (store n) = (s1, Ok dirty) →
  cl_FwdPropagate c (propagateRequestFromItems dirty) (transport n) = (t1, Ok fwd) →
  run_all (write_call <$> entries fwd) s1 = Some s2 →
  store_AllCommitted s2 = (s3, Ok committed) →
  cl_BackPropagate c (propagateRequestFromItems committed) t1 = (t2, Ok back) →
  run_all (commit_call <$> entries back) s3 = Some s4 →
  fullPropagate n =
  mkRun (Returns ()) (set_transport t2 (set_store s4 n))
        ([EvAllDirty; EvCall c (RPC_FwdPropagate (propagateRequestFromItems dirty))]
           ++ (write_event <$> entries fwd)
           ++ [EvAllCommitted;
               EvCall c (RPC_BackPropagate (propagateRequestFromItems committed))]
           ++ (commit_event <$> entries back)).
Proof.
  intros Hprev Hdirty Hfwd Hwrites Hcommitted Hback Hcommits.
  unfold fullPropagate. rewrite bind_run. cbn [get out post events app].
  rewrite Hprev, bind_run.
  rewrite (requestFwdPropagation_run n c s1 dirty t1 fwd Hdirty Hfwd). cbv zeta.
  rewrite writePropagated_loop.
  rewrite (for_each_store_do_ok _ _ _ _ s2) by done.
  cbn [out post events].
  rewrite (requestBackPropagation_run _ c s3 committed t2 back) by done.
  cbv zeta. rewrite commitPropagated_loop.
  rewrite (for_each_store_do_ok _ _ _ _ s4) by done.
  cbn [out post events]. reflexivity.
Qed.

(** ** ConnectToCoordinator *)

Tactic Notation "frame_by" uconstr(lem) := apply lem; try exact _; try done.

Lemma keeps_connectTail {X} (f : @Node St Net Client → X) `{!Frame f} (reply : NodeMeta) :
  (∀ nbr n, f (set_neighbors <[NeighborPosTail := nbr]> n) = f n) →
  keeps f (connectTail reply).
Proof.
  intros Hpos. unfold connectTail.
  destruct (negb _); [frame_by keeps_connectToNode | frame_by keeps_ret].
Qed.

Lemma keeps_connect_neighbors {X} (f : @Node St Net Client → X) `{!Frame f}
    (reply : NodeMeta) :
  (∀ pos nbr n, f (set_neighbors <[pos := nbr]> n) = f n) →
  keeps f (connectTail reply ;; connectPrev reply).
Proof.
  intros Hpos. apply keeps_bind; [exact _ | |intros _].
  - frame_by keeps_connectTail.
  - frame_by keeps_connectPrev.
Qed.

(** The three ways the run can go, by what the coordinator does. *)
Lemma ConnectToCoordinator_cases n :
  match tr_Connect (CdrPath n) (transport n) with
  | (t1, Err e) =>
      ConnectToCoordinator n =
      mkRun (Fails e) (set_transport t1 n) [EvConnect (CdrPath n)]
  | (t1, Ok cdrc) =>
      match cl_AddNode cdrc (Path n) t1 with
      | (t2, Err e) =>
          ConnectToCoordinator n =
          mkRun (Fails e) (set_transport t2 (set_cdr (Some cdrc) n))
                [EvConnect (CdrPath n); EvCall cdrc (RPC_AddNode (Path n))]
      | (t2, Ok reply) =>
          ConnectToCoordinator n =
          let r := (connectTail reply ;; connectPrev reply)
                     (install_reply reply (set_transport t2 (set_cdr (Some cdrc) n))) in
          mkRun (out r) (post r)
                (EvConnect (CdrPath n) :: EvCall cdrc (RPC_AddNode (Path n)) :: events r)
      end
  end.
Proof.
  destruct (tr_Connect (CdrPath n) (transport n)) as [t1 [cdrc|e]] eqn:Hconnect.
  - destruct (cl_AddNode cdrc (Path n) t1) as [t2 [reply|e]] eqn:Hadd.
    + exact (ConnectToCoordinator_run n cdrc t1 reply t2 Hconnect Hadd).
    + unfold ConnectToCoordinator. rewrite bind_run. cbn [get out post events app].
      rewrite bind_run, net_ask_run, Hconnect. cbn [out post events fst snd].
      rewrite bind_run. cbn [modify out post events app].
      rewrite bind_run. unfold call. rewrite net_ask_run.
      cbn [transport set_cdr set_transport]. by rewrite Hadd.
  - unfold ConnectToCoordinator. rewrite bind_run. cbn [get out post events app].
    by rewrite bind_run, net_ask_run, Hconnect.
Qed.

(** X15. When the coordinator cannot be reached, [ConnectToCoordinator]
    returns that error after this one call: the coordinator handle, the
    role bits and the registry are left as they were. *)
Theorem ConnectToCoordinator_unreachable n t1 e :
  tr_Connect (CdrPath n) (transport n) = (t1, Err e) →
  ConnectToCoordinator n =
  mkRun (Fails e) (set_transport t1 n) [EvConnect (CdrPath n)].
Proof.
  intros Hconnect. pose proof (ConnectToCoordinator_cases n) as Hcases.
  by rewrite Hconnect in Hcases.
Qed.

(** X16. When the coordinator is reached and [AddNode] fails,
    [ConnectToCoordinator] returns that error: the node keeps the new
    coordinator handle, which is not closed, and its role bits and registry
    are left as they were. *)
Theorem ConnectToCoordinator_not_added n t1 cdrc t2 e :
  tr_Connect (CdrPath n) (transport n) = (t1, Ok cdrc) →
  cl_AddNode cdrc (Path n) t1 = (t2, Err e) →
  ConnectToCoordinator n =
  mkRun (Fails e) (set_transport t2 (set_cdr (Some cdrc) n))
        [EvConnect (CdrPath n); EvCall cdrc (RPC_AddNode (Path n))].
Proof.
  intros Hconnect Hadd. pose proof (ConnectToCoordinator_cases n) as Hcases.
  by rewrite Hconnect, Hadd in Hcases.
Qed.

Lemma connectTail_tail_path (reply : NodeMeta) n :
  neighbors n !! NeighborPosTail = Some {| client := None; path := Tail reply |} →
  path (neighbor_at (post (connectTail reply n)) NeighborPosTail) = Tail reply.
Proof.
  intros Hrecord.
  assert (neighbor_at n NeighborPosTail = {| client := None; path := Tail reply |})
    as Hheld by (unfold neighbor_at; by rewrite Hrecord).
  unfold connectTail. destruct (negb _).
  - rewrite connectToNode_run.
    destruct (tr_Connect _ _) as [t1 [conn|e]]; cbv zeta.
    + rewrite Hheld. cbn [client post]. unfold neighbor_at, set_neighbors.
      cbn [neighbors]. by rewrite lookup_insert_eq.
    + cbn [post].
      change (neighbor_at (set_transport t1 n) NeighborPosTail)
        with (neighbor_at n NeighborPosTail).
      by rewrite Hheld.
  - change (path (neighbor_at n NeighborPosTail) = Tail reply). by rewrite Hheld.
Qed.

(** X17. Once the coordinator has answered, the node ends the run with
    the role bits of the reply, the new coordinator handle and the reported
    tail path recorded at the tail position, whether the run goes on to
    return nil, to return an error or to panic. *)
Theorem ConnectToCoordinator_installs_reply n cdrc t1 (reply : NodeMeta) t2 :
  tr_Connect (CdrPath n) (transport n) = (t1, Ok cdrc) →
  cl_AddNode cdrc (Path n) t1 = (t2, Ok reply) →
  let r := ConnectToCoordinator n in
  isHead (post r) = IsHead reply ∧
  isTail (post r) = IsTail reply ∧
  cdr (post r) = Some cdrc ∧
  path (neighbor_at (post r) NeighborPosTail) = Tail reply.
Proof.
  intros Hconnect Hadd. cbv zeta.
  rewrite (ConnectToCoordinator_run n cdrc t1 reply t2 Hconnect Hadd).
  cbv zeta. cbn [post].
  set (n1 := install_reply reply (set_transport t2 (set_cdr (Some cdrc) n))).
  split; [|split; [|split]].
  - by rewrite (keeps_connect_neighbors isHead reply (λ _ _ _, eq_refl) n1).
  - by rewrite (keeps_connect_neighbors isTail reply (λ _ _ _, eq_refl) n1).
  - by rewrite (keeps_connect_neighbors cdr reply (λ _ _ _, eq_refl) n1).
  - assert (neighbors n1 !! NeighborPosTail
            = Some {| client := None; path := Tail reply |}) as Hrecord
      by apply lookup_insert_eq.
    pose proof (connectTail_tail_path reply n1 Hrecord) as Hpath.
    rewrite bind_run. destruct (out (connectTail reply n1)); cbn [post]; [|done..].
    unfold neighbor_at in *.
    pose proof (keeps_connectPrev (λ n', neighbors n' !! NeighborPosTail) reply)
      as Hkeeps.
    unfold keeps in Hkeeps. cbn beta in Hkeeps. rewrite Hkeeps; [done|].
    intros nbr n'. by apply lookup_insert_ne.
Qed.

(** X18. When the node is not the tail and the tail cannot be reached,
    [ConnectToCoordinator] returns that error and goes no further: the
    predecessor is not contacted and its record is left as it was, and the
    tail position holds the reported path without a handle. *)
Theorem ConnectToCoordinator_tail_unreachable n cdrc t1 (reply : NodeMeta) t2 t3 e :
  tr_Connect (CdrPath n) (transport n) = (t1, Ok cdrc) →
  cl_AddNode cdrc (Path n) t1 = (t2, Ok reply) →
  IsTail reply = false →
  tr_Connect (Tail reply) t2 = (t3, Err e) →
  ConnectToCoordinator n =
  mkRun (Fails e)
        (set_transport t3 (install_reply reply (set_cdr (Some cdrc) n)))
        [EvConnect (CdrPath n); EvCall cdrc (RPC_AddNode (Path n));
         EvConnect (Tail reply)].
Proof.
  intros Hconnect Hadd Htail Hunreachable.
  rewrite (ConnectToCoordinator_run n cdrc t1 reply t2 Hconnect Hadd).
  cbv zeta. rewrite bind_run. unfold connectTail. rewrite Htail. cbn [negb].
  rewrite connectToNode_run. cbn [transport install_reply set_neighbors set_isTail
    set_isHead set_transport set_cdr].
  by rewrite Hunreachable.
Qed.

Lemma install_reply_prev (reply : NodeMeta) n :
  neighbors (install_reply reply n) !! NeighborPosPrev = neighbors n !! NeighborPosPrev.
Proof. unfold install_reply, set_neighbors. cbn [neighbors]. by apply lookup_insert_ne. Qed.

Lemma connectTail_prev (reply : NodeMeta) n :
  neighbors (post (connectTail reply n)) !! NeighborPosPrev =
  neighbors n !! NeighborPosPrev.
Proof.
  pose proof (keeps_connectTail (λ n', neighbors n' !! NeighborPosPrev) reply) as Hkeeps.
  unfold keeps in Hkeeps. cbn beta in Hkeeps. apply Hkeeps.
  intros nbr n'. by apply lookup_insert_ne.
Qed.


Lemma connectPrev_closes (reply : NodeMeta) n c :
  EvClose c ∈ events (connectPrev reply n) →
  client (neighbor_at n NeighborPosPrev) = Some c.
Proof.
  unfold connectPrev. destruct (decide (Prev reply ≠ "")) as [Hprev|Hprev].
  - rewrite bind_run.
    assert (EvClose c ∈ events (connectToNode (Prev reply) NeighborPosPrev n) →
            client (neighbor_at n NeighborPosPrev) = Some c) as Hconn.
    { intros [Hev|(c' & Hc & Hev)]%connectToNode_events; [discriminate Hev|].
      by injection Hev as ->. }
    destruct (out (connectToNode _ _ n)); cbn [events]; [|by auto..].
    intros [Hin|Hin]%elem_of_app; [by auto|].
    pose proof (fullPropagate_events (post (connectToNode (Prev reply) NeighborPosPrev n)))
      as Hall.
    rewrite Forall_forall in Hall. by destruct (Hall _ Hin).
  - rewrite bind_run. cbn [get out post events app].
    destruct (decide _) as [Hpath|Hpath]; [|by intros ?%elem_of_nil].
    destruct (client _) as [c'|]; cbn; [|by intros ?%elem_of_nil].
    destruct (cl_Close c' (transport n)). cbn.
    intros Hev%list_elem_of_singleton. by injection Hev as ->.
Qed.

(** X20. The only connection [ConnectToCoordinator] ever closes is the one
    held at the predecessor position when it starts.  The coordinator
    handle it replaces and the handle held at the tail position are never
    closed by it. *)
Theorem ConnectToCoordinator_closes_only_predecessor n c :
  EvClose c ∈ events (ConnectToCoordinator n) →
  client (neighbor_at n NeighborPosPrev) = Some c.
Proof.
  pose proof (ConnectToCoordinator_cases n) as Hcases.
  destruct (tr_Connect (CdrPath n) (transport n)) as [t1 [cdrc|e]].
  2:{ rewrite Hcases. cbn [events]. by intros ?%list_elem_of_singleton. }
  destruct (cl_AddNode cdrc (Path n) t1) as [t2 [reply|e]]; rewrite Hcases.
  2:{ cbn [events]. intros [?|?%list_elem_of_singleton]%elem_of_cons; done. }
  cbv zeta. cbn [events].
  set (n1 := install_reply reply (set_transport t2 (set_cdr (Some cdrc) n))).
  intros [?|[?|Hin]%elem_of_cons]%elem_of_cons; [done..|].
  assert (EvClose c ∉ events (connectTail reply n1)) as Htail.
  { unfold connectTail. destruct (negb _); [|apply not_elem_of_nil].
    intros [Hev|(c' & Hc & Hev)]%connectToNode_events; [discriminate Hev|].
    unfold neighbor_at, n1, install_reply, set_neighbors in Hc. cbn [neighbors] in Hc.
    rewrite lookup_insert_eq in Hc. discriminate Hc. }
  assert (neighbor_at (post (connectTail reply n1)) NeighborPosPrev
          = neighbor_at n NeighborPosPrev) as Hheld.
  { unfold neighbor_at, n1. by rewrite connectTail_prev, install_reply_prev. }
  rewrite bind_run in Hin.
  destruct (out (connectTail reply n1)); cbn [events] in Hin; [|done..].
  apply elem_of_app in Hin as [Hin|Hin]; [done|].
  rewrite <-Hheld. by apply (connectPrev_closes reply).
Qed.

Lemma connectToNode_installed p pos n :
  out (connectToNode p pos n) = Returns () →
  ∃ conn, neighbors (post (connectToNode p pos n)) !! pos =
          Some {| client := Some conn; path := p |}.
Proof.
  rewrite connectToNode_run.
  destruct (tr_Connect p (transport n)) as [t1 [conn|e]]; [|done].
  cbv zeta. intros _. exists conn.
  destruct (client (neighbor_at n pos)); cbn [post]; unfold set_neighbors;
    cbn [neighbors]; apply lookup_insert_eq.
Qed.

(** X21. When [ConnectToCoordinator] returns nil, the registry agrees with
    the reply: the tail position holds the reported tail path, with a
    handle exactly when the node is not the tail, and a reported
    predecessor is installed at the predecessor position with a handle and
    the reported path. *)
Theorem ConnectToCoordinator_connected n cdrc t1 (reply : NodeMeta) t2 :
  tr_Connect (CdrPath n) (transport n) = (t1, Ok cdrc) →
  cl_AddNode cdrc (Path n) t1 = (t2, Ok reply) →
  out (ConnectToCoordinator n) = Returns () →
  let n' := post (ConnectToCoordinator n) in
  (∃ handle, neighbors n' !! NeighborPosTail =
               Some {| client := handle; path := Tail reply |} ∧
             (is_Some handle ↔ IsTail reply = false)) ∧
  (Prev reply ≠ "" →
   ∃ conn, neighbors n' !! NeighborPosPrev =
           Some {| client := Some conn; path := Prev reply |}).
Proof.
  intros Hconnect Hadd. cbv zeta.
  rewrite (ConnectToCoordinator_run n cdrc t1 reply t2 Hconnect Hadd).
  cbv zeta. cbn [out post].
  set (n1 := install_reply reply (set_transport t2 (set_cdr (Some cdrc) n))).
  rewrite bind_run.
  destruct (out (connectTail reply n1)) as [[]|e|] eqn:Htail; cbn [out post]; [|done..].
  set (n2 := post (connectTail reply n1)). intros Hprev. split.
  - pose proof (keeps_connectPrev (λ n', neighbors n' !! NeighborPosTail) reply)
      as Hkeeps.
    unfold keeps in Hkeeps. cbn beta in Hkeeps.
    rewrite Hkeeps by (intros nbr n'; by apply lookup_insert_ne).
    unfold n2, connectTail in *. destruct (IsTail reply); cbn [negb] in *.
    + exists None. split; [apply lookup_insert_eq|].
      split; [by intros [? ?] | done].
    + destruct (connectToNode_installed _ _ _ Htail) as [conn Hconn].
      exists (Some conn). split; [done|]. split; [done | by eauto].
  - intros Hreported. unfold connectPrev in *.
    rewrite decide_True in * by done. rewrite bind_run in *.
    destruct (out (connectToNode (Prev reply) NeighborPosPrev n2)) as [[]|e|] eqn:Hconn;
      cbn [out post] in *; [|done..].
    destruct (connectToNode_installed _ _ _ Hconn) as [conn Hinstalled].
    exists conn. rewrite <-Hinstalled.
    apply (keeps_fullPropagate (λ n', neighbors n' !! NeighborPosPrev)).
Qed.

Lemma connectToNode_store p pos n : store (post (connectToNode p pos n)) = store n.
Proof.
  rewrite connectToNode_run.
  destruct (tr_Connect p (transport n)) as [t1 [conn|e]]; [|done].
  cbv zeta. by destruct (client (neighbor_at n pos)).
Qed.

Lemma connectTail_store (reply : NodeMeta) n :
  store (post (connectTail reply n)) = store n.
Proof. unfold connectTail. destruct (negb _); [apply connectToNode_store | done]. Qed.

Lemma connectPrev_store (reply : NodeMeta) n :
  ¬ catchup_run (events (connectPrev reply n)) →
  store (post (connectPrev reply n)) = store n.
Proof.
  rewrite connectPrev_catchup. intros Hno. unfold connectPrev.
  destruct (decide (Prev reply ≠ "")) as [Hprev|Hprev].
  - rewrite bind_run.
    destruct (connectToNode_out_cases (Prev reply) NeighborPosPrev n)
      as [[_ Hc]|(e & -> & _)]; [by destruct Hno|].
    cbn [post]. apply connectToNode_store.
  - rewrite bind_run. cbn [get out post events app].
    destruct (decide _) as [Hpath|Hpath]; [|done].
    destruct (client _) as [c'|]; cbn; [|done].
    by destruct (cl_Close c' (transport n)).
Qed.

(** X22. [ConnectToCoordinator] touches the store only through the
    catch-up protocol: in a run that does not start the catch-up (the
    coordinator or a neighbor cannot be reached, or no predecessor is
    reported) the node keeps its store as it was. *)
Theorem ConnectToCoordinator_store_untouched n :
  ¬ catchup_run (events (ConnectToCoordinator n)) →
  store (post (ConnectToCoordinator n)) = store n.
Proof.
  pose proof (ConnectToCoordinator_cases n) as Hcases.
  destruct (tr_Connect (CdrPath n) (transport n)) as [t1 [cdrc|e]];
    [|by rewrite Hcases].
  destruct (cl_AddNode cdrc (Path n) t1) as [t2 [reply|e]]; rewrite Hcases; [|done].
  cbv zeta. cbn [post events].
  set (n1 := install_reply reply (set_transport t2 (set_cdr (Some cdrc) n))).
  unfold catchup_run. rewrite !not_elem_of_cons. intros (_ & _ & Hno).
  rewrite bind_run in *.
  pose proof (connectTail_store reply n1) as Htail.
  destruct (out (connectTail reply n1)); cbn [post events] in *; [|done..].
  apply not_elem_of_app in Hno as [_ Hno].
  by rewrite connectPrev_store, Htail.
Qed.

(** *** Panics *)






(** ** ListenAndServe *)

Lemma connectToNode_no_shutdown p pos n :
  EvShutdown ∉ events (connectToNode p pos n).
Proof. intros [Hev|(c & _ & Hev)]%connectToNode_events; discriminate Hev. Qed.

Lemma connectPrev_no_shutdown (reply : NodeMeta) n :
  EvShutdown ∉ events (connectPrev reply n).
Proof.
  unfold connectPrev. destruct (decide (Prev reply ≠ "")) as [Hprev|Hprev].
  - rewrite bind_run.
    pose proof (connectToNode_no_shutdown (Prev reply) NeighborPosPrev n) as Hconn.
    destruct (out (connectToNode _ _ n)); cbn [events]; [|done..].
    intros [Hin|Hin]%elem_of_app; [done|].
    pose proof (fullPropagate_events (post (connectToNode (Prev reply) NeighborPosPrev n)))
      as Hall.
    rewrite Forall_forall in Hall. by destruct (Hall _ Hin).
  - rewrite bind_run. cbn [get out post events app].
    destruct (decide _) as [Hpath|Hpath]; [|apply not_elem_of_nil].
    destruct (client _) as [c'|]; cbn; [|apply not_elem_of_nil].
    destruct (cl_Close c' (transport n)). cbn. by intros ?%list_elem_of_singleton.
Qed.

Lemma ConnectToCoordinator_no_shutdown n :
  EvShutdown ∉ events (ConnectToCoordinator n).
Proof.
  pose proof (ConnectToCoordinator_cases n) as Hcases.
  destruct (tr_Connect (CdrPath n) (transport n)) as [t1 [cdrc|e]].
  2:{ rewrite Hcases. cbn [events]. by intros ?%list_elem_of_singleton. }
  destruct (cl_AddNode cdrc (Path n) t1) as [t2 [reply|e]]; rewrite Hcases.
  2:{ cbn [events]. intros [?|?%list_elem_of_singleton]%elem_of_cons; done. }
  cbv zeta. cbn [events].
  set (n1 := install_reply reply (set_transport t2 (set_cdr (Some cdrc) n))).
  intros [?|[?|Hin]%elem_of_cons]%elem_of_cons; [done..|].
  assert (EvShutdown ∉ events (connectTail reply n1)) as Htail.
  { unfold connectTail. destruct (negb _);
      [apply connectToNode_no_shutdown | apply not_elem_of_nil]. }
  rewrite bind_run in Hin.
  destruct (out (connectTail reply n1)); cbn [events] in Hin; [|done..].
  apply elem_of_app in Hin as [Hin|Hin]; [done|].
  by apply connectPrev_no_shutdown in Hin.
Qed.

(** X24. [ListenAndServe] shuts the server down exactly when
    [ConnectToCoordinator] returns an error: when it returns nil, or
    panics, no [Shutdown] call is made, and when it returns an error the
    [Shutdown] call is the last call of the run. *)
Theorem ListenAndServe_shutdown (srv : ServerRun) n :
  (EvShutdown ∈ (ListenAndServe srv n).2 ↔
   ∃ e, out (ConnectToCoordinator n) = Fails e) ∧
  (EvShutdown ∈ (ListenAndServe srv n).2 →
   last (ListenAndServe srv n).2 = Some EvShutdown).
Proof.
  pose proof (ConnectToCoordinator_no_shutdown n) as Hnone.
  unfold ListenAndServe, coordinatorTask. cbn [snd].
  destruct (out (ConnectToCoordinator n)) as [[]|e|] eqn:Hout; cbn [events].
  - split; [|done]. split; [done | by intros [? ?]].
  - split; [|intros _; apply last_snoc].
    split; [by eauto|]. intros _. apply elem_of_app. right. by apply list_elem_of_singleton.
  - split; [|done]. split; [done | by intros [? ?]].
Qed.

(** ** resetNeighbor *)

Lemma resetNeighbor_run (nbr : neighbor) n :
  resetNeighbor nbr n =
  match client nbr with
  | Some c =>
      mkRun (Returns neighbor_zero) (set_transport (cl_Close c (transport n)).1 n)
            [EvClose c]
  | None => mkRun Panics n []
  end.
Proof.
  unfold resetNeighbor. rewrite bind_run.
  destruct (client nbr) as [c|]; cbn [close]; [|done].
  by destruct (cl_Close c (transport n)).
Qed.

(** X25. [resetNeighbor] closes the handle of the record and leaves the
    zero record; on a record without a handle it panics before writing the
    record.  So it cannot be applied twice: resetting the record a reset
    has left panics, with no further call made. *)
Theorem resetNeighbor_once (nbr : neighbor) n :
  resetNeighbor nbr n =
    match client nbr with
    | Some c =>
        mkRun (Returns neighbor_zero) (set_transport (cl_Close c (transport n)).1 n)
              [EvClose c]
    | None => mkRun Panics n []
    end ∧
  (resetNeighbor nbr ≫= resetNeighbor) n =
    mkRun Panics (post (resetNeighbor nbr n)) (events (resetNeighbor nbr n)).
Proof.
  split; [apply resetNeighbor_run|].
  rewrite bind_run, (resetNeighbor_run nbr n).
  destruct (client nbr) as [c|]; cbn [out post events]; [|done].
  rewrite resetNeighbor_run. cbn [client neighbor_zero out post events].
  by rewrite app_nil_r.
Qed.

End NodeMore.

(** * The further properties on concrete runs *)

Module MoreRuns.

Import Scenario.

(** X4 on three items: swapping the item of "y" with the first item of "x"
    gives the same request. *)
Lemma propagateRequest_interleaving_witness :
  propagateRequestFromItems [item "x" 1 false; item "y" 4 true; item "x" 2 false] =
  propagateRequestFromItems [item "y" 4 true; item "x" 1 false; item "x" 2 false].
Proof.
  apply propagateRequest_interleaving.
  intros key. unfold versionsOf, item. rewrite !filter_cons, filter_nil. cbn [Key].
  repeat case_decide; first [reflexivity | congruence].
Defined.

(** X5 on the middle node: a response with a key and no item. *)
Lemma applyPropagated_nothing_witness :
  applyPropagated (range_impl := range_listed) Back hollow_reply middle =
  mkRun (Returns ()) middle [].
Proof.
  apply (applyPropagated_nothing (range_impl := range_listed) Back hollow_reply middle).
  unfold hollow_reply. intros key forKey [_ <-]%lookup_singleton_Some. reflexivity.
Defined.

(** X6 on the middle node: whichever way the keys are visited, the writes
    for "x" are version 2 and then version 3. *)
Lemma applyPropagated_key_order_witness :
  out (applyPropagated (range_impl := range_reversed) Forward fwd_reply middle)
    = Returns () ∧
  filter (λ ev, event_key ev = Some "x")
         (events (applyPropagated (range_impl := range_reversed) Forward fwd_reply middle))
    = [EvWrite "x" [x61] 2; EvWrite "x" [x61] 3].
Proof.
  assert (out (applyPropagated (range_impl := range_reversed) Forward fwd_reply middle)
          = Returns ()) as Hout by (vm_compute; reflexivity).
  split; [exact Hout|].
  exact (applyPropagated_key_order (range_impl := range_reversed)
           Forward fwd_reply middle "x" Hout).
Defined.

(** X7 on the middle node, visiting the keys in listed and in reversed
    order. *)
Lemma applyPropagated_order_irrelevant_witness :
  events (applyPropagated (range_impl := range_listed) Forward fwd_reply middle) ≡ₚ
  events (applyPropagated (range_impl := range_reversed) Forward fwd_reply middle).
Proof.
  apply (applyPropagated_order_irrelevant range_listed range_reversed
           Forward fwd_reply middle middle); vm_compute; reflexivity.
Defined.

(** X8 on the node that cannot reach the tail. *)
Lemma connectToNode_unreachable_witness :
  connectToNode "tail:1" NeighborPosTail cut_off =
  mkRun (Fails "connection refused") cut_off [EvConnect "tail:1"].
Proof.
  apply (connectToNode_unreachable "tail:1" NeighborPosTail cut_off
           (transport cut_off) "connection refused").
  vm_compute; reflexivity.
Defined.

(** X9 on the head that joined: connection 1 to the old tail is closed and
    connection 2 installed. *)
Lemma connectToNode_replaces_witness :
  let r := connectToNode "tail:2" NeighborPosTail head_joined in
  out r = Returns () ∧
  neighbors (post r) =
    <[NeighborPosTail := {| client := Some 2; path := "tail:2" |}]>
      (neighbors head_joined) ∧
  events r = [EvConnect "tail:2"; EvClose 1].
Proof.
  exact (connectToNode_replaces "tail:2" NeighborPosTail head_joined
           (ScriptNet.Connect "tail:2" (transport head_joined)).1 2 eq_refl).
Defined.


(** X11 on the node whose store is out of service, with no predecessor
    connection. *)
Lemma requestPropagation_enumeration_fails_witness :
  requestPropagation (store_impl := DownStore.down_storer)
    (range_impl := range_listed) Back None storeless =
  mkRun (Fails DownStore.unavailable) storeless [EvAllCommitted].
Proof.
  exact (requestPropagation_enumeration_fails (store_impl := DownStore.down_storer)
           (range_impl := range_listed) Back None storeless ()
           DownStore.unavailable eq_refl).
Defined.

(** X12 on the node of the lossy transport. *)
Lemma requestPropagation_call_fails_witness :
  requestPropagation (transport_impl := LossyNet.lossy_transporter)
    (range_impl := range_listed) Forward (Some 0) unheard =
  mkRun (Fails LossyNet.lost) unheard
        [EvAllDirty;
         EvCall 0 (RPC_FwdPropagate (propagateRequestFromItems [item "x" 1 false]))].
Proof.
  exact (requestPropagation_call_fails (transport_impl := LossyNet.lossy_transporter)
           (range_impl := range_listed) Forward 0 unheard
           [item "x" 1 false] [item "x" 1 false] 0 LossyNet.lost eq_refl eq_refl).
Defined.


(** X14 on the middle node with its predecessor connected. *)
Lemma fullPropagate_catches_up_witness :
  let r := fullPropagate (range_impl := range_listed) with_predecessor in
  out r = Returns () ∧
  store (post r) =
    [item "x" 1 true; item "y" 1 false; item "x" 2 true; item "x" 3 false].
Proof.
  pose proof (fullPropagate_catches_up (range_impl := range_listed)
                with_predecessor 0
                [item "x" 1 false] [item "x" 1 false]
                (transport with_predecessor) fwd_reply
                [item "x" 1 false; item "y" 1 false; item "x" 2 false; item "x" 3 false]
                [item "x" 1 false; item "y" 1 false; item "x" 2 false; item "x" 3 false]
                []
                (transport with_predecessor) back_reply
                [item "x" 1 true; item "y" 1 false; item "x" 2 true; item "x" 3 false])
    as Hrun.
  rewrite Hrun; [split; reflexivity | vm_compute; reflexivity ..].
Defined.

(** X15 on the node whose coordinator cannot be reached. *)
Lemma ConnectToCoordinator_unreachable_witness :
  connect stranded = mkRun (Fails "connection refused") stranded [EvConnect "cdr:1"].
Proof.
  exact (ConnectToCoordinator_unreachable (range_impl := range_listed) stranded
           (transport stranded) "connection refused" eq_refl).
Defined.

(** X16 on the node of the lossy transport: connection 0 to the
    coordinator is kept in [cdr]. *)
Lemma ConnectToCoordinator_not_added_witness :
  ConnectToCoordinator (transport_impl := LossyNet.lossy_transporter)
    (range_impl := range_listed) unheard =
  mkRun (Fails LossyNet.lost) (set_transport 1 (set_cdr (Some 0) unheard))
        [EvConnect "cdr:1"; EvCall 0 (RPC_AddNode "self:1")].
Proof.
  exact (ConnectToCoordinator_not_added (transport_impl := LossyNet.lossy_transporter)
           (range_impl := range_listed) unheard 1 0 1 LossyNet.lost eq_refl eq_refl).
Defined.

(** X17 on the node that cannot reach the tail: the run fails and the
    reply is installed all the same. *)
Lemma ConnectToCoordinator_installs_reply_witness :
  out (connect cut_off) = Fails "connection refused" ∧
  isHead (post (connect cut_off)) = false ∧
  isTail (post (connect cut_off)) = false ∧
  cdr (post (connect cut_off)) = Some 0 ∧
  path (neighbor_at (post (connect cut_off)) NeighborPosTail) = "tail:1".
Proof.
  split; [vm_compute; reflexivity|].
  exact (ConnectToCoordinator_installs_reply (range_impl := range_listed) cut_off 0
           (ScriptNet.Connect "cdr:1" (transport cut_off)).1 meta_middle
           (ScriptNet.Connect "cdr:1" (transport cut_off)).1 eq_refl eq_refl).
Defined.

(** X18 on the node that cannot reach the tail. *)
Lemma ConnectToCoordinator_tail_unreachable_witness :
  out (connect cut_off) = Fails "connection refused" ∧
  events (connect cut_off) =
    [EvConnect "cdr:1"; EvCall 0 (RPC_AddNode "self:1"); EvConnect "tail:1"] ∧
  neighbors (post (connect cut_off)) !! NeighborPosPrev = None.
Proof.
  pose proof (ConnectToCoordinator_tail_unreachable (range_impl := range_listed) cut_off 0
                (ScriptNet.Connect "cdr:1" (transport cut_off)).1 meta_middle
                (ScriptNet.Connect "cdr:1" (transport cut_off)).1
                (ScriptNet.Connect "cdr:1" (transport cut_off)).1
                "connection refused" eq_refl eq_refl eq_refl eq_refl) as Hrun.
  unfold connect. rewrite Hrun. repeat split.
Defined.


(** X20 on the same node: the connection closed is the one it held to the
    predecessor. *)
Lemma ConnectToCoordinator_closes_only_predecessor_witness :
  EvClose 2 ∈ events (connect promoted) ∧
  client (neighbor_at promoted NeighborPosPrev) = Some 2.
Proof.
  assert (EvClose 2 ∈ events (connect promoted)) as Hclosed.
  { apply list_elem_of_In. vm_compute. repeat first [left; reflexivity | right]. }
  split; [exact Hclosed|].
  exact (ConnectToCoordinator_closes_only_predecessor (range_impl := range_listed)
           promoted 2 Hclosed).
Defined.

(** X21 on the middle node as it starts. *)
Lemma ConnectToCoordinator_connected_witness :
  out (connect middle) = Returns () ∧
  (∃ handle, neighbors (post (connect middle)) !! NeighborPosTail =
               Some {| client := handle; path := "tail:1" |} ∧
             (is_Some handle ↔ IsTail meta_middle = false)) ∧
  (Prev meta_middle ≠ "" →
   ∃ conn, neighbors (post (connect middle)) !! NeighborPosPrev =
           Some {| client := Some conn; path := "prev:1" |}).
Proof.
  assert (out (connect middle) = Returns ()) as Hout by (vm_compute; reflexivity).
  split; [exact Hout|].
  exact (ConnectToCoordinator_connected (range_impl := range_listed) middle 0
           (ScriptNet.Connect "cdr:1" (transport middle)).1 meta_middle
           (ScriptNet.Connect "cdr:1" (transport middle)).1 eq_refl eq_refl Hout).
Defined.

(** X22 on the head as it starts: no predecessor is reported, no catch-up
    is run and the store keeps its one item. *)
Lemma ConnectToCoordinator_store_untouched_witness :
  ¬ catchup_run (events (connect head)) ∧
  store (post (connect head)) = [item "x" 1 false].
Proof.
  assert (¬ catchup_run (events (connect head))) as Hno.
  { intros Hin%list_elem_of_In. vm_compute in Hin.
    repeat (destruct Hin as [Hin|Hin]; [discriminate Hin|]). exact Hin. }
  split; [exact Hno|].
  exact (ConnectToCoordinator_store_untouched (range_impl := range_listed) head Hno).
Defined.


End MoreRuns.
